(** * Claw machine: a shallow embedding of
    src/claw-react/src/components/ClawMachine.jsx

    The component keeps its game state in mutable refs and drives every
    motion with [setInterval]/[setTimeout].  The embedding makes that state
    explicit: one record [state] holds the heap of positioned objects (the
    arm joint, the vertical rail, the arm and the toys, addressed by
    [obj_id] like JS object references), the fields of [gameRef.current],
    the browser's live interval and timeout tables, the two buttons and a
    trace of outbound effects.  Every handler becomes a function
    [state -> state]; a timer firing is an input of the step function.

    Modelling conventions.
    - Layout numbers are JS doubles; they are modelled as [Z] and the
      halvings of the layout code ([w / 2], [(…) / 4]) as [Z.div].  None of
      the properties below depends on rounding.
    - Pure DOM effects ([applyStyles], [resizeShadow], CSS variables, the
      collected-toy wrapper) are omitted; element classes that the script
      reads back are kept in [classList].
    - Closures passed as [next] or to [setTimeout] are the constructors of
      [cb]; running one appends [Fired c] to the trace and runs its body.
    - [Math.atan2] is floating point: a grabbed toy's angle is recorded as
      the pair of arguments given to it ([FromAtan2]); the integer
      post-processing of [setRotateAngle] is [rotation_of]. *)

From Stdlib Require Import ZArith List Bool String Lia.
Import ListNotations.
Open Scope Z_scope.

(** ** Constants and small helpers (lines 4-15) *)

Definition CORNER_BUFFER : Z := 16.
Definition MACHINE_BUFFER_x : Z := 36.
Definition MACHINE_BUFFER_y : Z := 16.

(** [i % n] and [Math.floor(i / n)] on the non-negative indices used. *)
Definition calcX (i n : Z) : Z := Z.rem i n.
Definition calcY (i n : Z) : Z := Z.div i n.

(** [adjustAngle]: JS [%] takes the sign of the dividend, i.e. [Z.rem]. *)
Definition adjustAngle (angle : Z) : Z :=
  let a := Z.rem angle 360 in
  if a <? 0 then a + 360 else a.

(** The integer part of [setRotateAngle] (lines 231-232), applied to the
    whole-degree angle [radToDeg(atan2(..)) - 90]; [Math.round] of an
    integer is the integer itself. *)
Definition rotation_of (angle : Z) : Z :=
  let adjusted := adjustAngle angle in
  if adjusted <? 180 then adjusted * -1 else 360 - adjusted.

(** ** Objects *)

Inductive obj_id : Type :=
| ArmJoint
| VertRail
| Arm
| ToyObj (i : nat).

Definition obj_id_eq_dec (a b : obj_id) : {a = b} + {a <> b}.
Proof. decide equality; apply Nat.eq_dec. Defined.

(** The attributes [moveObject] can drive. *)
Inductive move_key : Type := KX | KY | KH.

Inductive origin : Type :=
| OPoint (ox oy : Z)
| ONamed (name : string).

Inductive angle_val : Type :=
| Deg (d : Z)
| FromAtan2 (dy dx : Z).

Record pose : Type := Pose { dx : Z; dy : Z; dw : Z; dh : Z }.

(** The object literal of [createWorldObject] / [createToy]. *)
Record wobj : Type := {
  x : Z; y : Z; z : Z; w : Z; h : Z;
  angle : angle_val;
  transformOrigin : origin;
  interval : option nat;
  default : pose;
  moveWith : list (option obj_id);
  toyType : string;
  index : Z;
  clawPos : option (Z * Z);
  classList : list string
}.

Definition set_x v (o : wobj) : wobj :=
  {| x := v; y := y o; z := z o; w := w o; h := h o; angle := angle o;
     transformOrigin := transformOrigin o; interval := interval o;
     default := default o; moveWith := moveWith o; toyType := toyType o;
     index := index o; clawPos := clawPos o; classList := classList o |}.
Definition set_y v (o : wobj) : wobj :=
  {| x := x o; y := v; z := z o; w := w o; h := h o; angle := angle o;
     transformOrigin := transformOrigin o; interval := interval o;
     default := default o; moveWith := moveWith o; toyType := toyType o;
     index := index o; clawPos := clawPos o; classList := classList o |}.
Definition set_h v (o : wobj) : wobj :=
  {| x := x o; y := y o; z := z o; w := w o; h := v; angle := angle o;
     transformOrigin := transformOrigin o; interval := interval o;
     default := default o; moveWith := moveWith o; toyType := toyType o;
     index := index o; clawPos := clawPos o; classList := classList o |}.
Definition set_z v (o : wobj) : wobj :=
  {| x := x o; y := y o; z := v; w := w o; h := h o; angle := angle o;
     transformOrigin := transformOrigin o; interval := interval o;
     default := default o; moveWith := moveWith o; toyType := toyType o;
     index := index o; clawPos := clawPos o; classList := classList o |}.
Definition set_angle v (o : wobj) : wobj :=
  {| x := x o; y := y o; z := z o; w := w o; h := h o; angle := v;
     transformOrigin := transformOrigin o; interval := interval o;
     default := default o; moveWith := moveWith o; toyType := toyType o;
     index := index o; clawPos := clawPos o; classList := classList o |}.
Definition set_origin v (o : wobj) : wobj :=
  {| x := x o; y := y o; z := z o; w := w o; h := h o; angle := angle o;
     transformOrigin := v; interval := interval o;
     default := default o; moveWith := moveWith o; toyType := toyType o;
     index := index o; clawPos := clawPos o; classList := classList o |}.
Definition set_interval v (o : wobj) : wobj :=
  {| x := x o; y := y o; z := z o; w := w o; h := h o; angle := angle o;
     transformOrigin := transformOrigin o; interval := v;
     default := default o; moveWith := moveWith o; toyType := toyType o;
     index := index o; clawPos := clawPos o; classList := classList o |}.
Definition set_default v (o : wobj) : wobj :=
  {| x := x o; y := y o; z := z o; w := w o; h := h o; angle := angle o;
     transformOrigin := transformOrigin o; interval := interval o;
     default := v; moveWith := moveWith o; toyType := toyType o;
     index := index o; clawPos := clawPos o; classList := classList o |}.
Definition set_moveWith v (o : wobj) : wobj :=
  {| x := x o; y := y o; z := z o; w := w o; h := h o; angle := angle o;
     transformOrigin := transformOrigin o; interval := interval o;
     default := default o; moveWith := v; toyType := toyType o;
     index := index o; clawPos := clawPos o; classList := classList o |}.
Definition set_clawPos v (o : wobj) : wobj :=
  {| x := x o; y := y o; z := z o; w := w o; h := h o; angle := angle o;
     transformOrigin := transformOrigin o; interval := interval o;
     default := default o; moveWith := moveWith o; toyType := toyType o;
     index := index o; clawPos := v; classList := classList o |}.
Definition set_classList v (o : wobj) : wobj :=
  {| x := x o; y := y o; z := z o; w := w o; h := h o; angle := angle o;
     transformOrigin := transformOrigin o; interval := interval o;
     default := default o; moveWith := moveWith o; toyType := toyType o;
     index := index o; clawPos := clawPos o; classList := v |}.

(** [obj[moveKey]] read and written. *)
Definition get_key (k : move_key) (o : wobj) : Z :=
  match k with KX => x o | KY => y o | KH => h o end.
Definition set_key (k : move_key) (v : Z) (o : wobj) : wobj :=
  match k with KX => set_x v o | KY => set_y v o | KH => set_h v o end.
(** [obj.default[moveKey]]. *)
Definition default_of (k : move_key) (o : wobj) : Z :=
  match k with KX => dx (default o) | KY => dy (default o) | KH => dh (default o) end.
(** [moveKey === 'h' ? 'y' : moveKey]: the attribute of a passenger. *)
Definition prop_key (k : move_key) : move_key :=
  match k with KH => KY | k' => k' end.

(** [el.classList.add] / [.remove]. *)
Definition add_class (c : string) (l : list string) : list string :=
  if existsb (String.eqb c) l then l else l ++ [c].
Definition remove_class (c : string) (l : list string) : list string :=
  filter (fun d => negb (String.eqb c d)) l.

(** [arr[0] = v]: replaces the first entry, or creates it. *)
Definition set_first {A} (v : A) (l : list A) : list A :=
  match l with [] => [v] | _ :: t => v :: t end.

(** ** Callbacks, timers and the session state *)

(** The closures of the component that are run later or by [moveObject]. *)
Inductive cb : Type :=
| CbUser (n : nat)     (* an [onComplete] supplied by a caller, with no body of its own *)
| CbStopHori           (* [stopHoriBtnAndActivateVertBtn] *)
| CbInitJoint          (* mount: [next] of the arm-joint intro move *)
| CbInitRail           (* mount: [next] of the rail intro move *)
| CbVertUpDelay        (* [onVertBtnUp]: the [setTimeout(…, 500)] body *)
| CbArmExtended        (* [next] of the extension: [setTimeout(…, 500)] *)
| CbGrab               (* that timeout: [grabToy] and the retraction *)
| CbArmRetracted       (* [next] of the retraction: rail back *)
| CbRailReturned       (* [next] of the rail return: joint back *)
| CbDropToy            (* [dropToy] *)
| CbDropEnd            (* [dropToy]'s [setTimeout(…, 700)] body *)
| CbArrow.             (* [collectToy]'s [setTimeout(…, 1000)] body *)

(** Outbound effects, newest first. *)
Inductive event : Type :=
| Fired (c : cb)
| TurnComplete                     (* postMessage TURN_COMPLETE *)
| CollectRequest (toyId : string). (* POST /api/claw/collect, then TOY_COLLECTED *)

Record dims : Type := Dims {
  machineWidth : Z; machineHeight : Z; machineTop : Z; machineTopHeight : Z;
  machineBottomHeight : Z; machineBottomTop : Z; maxArmLength : Z }.

Record button : Type := Button { active : bool; locked : bool }.

(** Geometry of a catalog entry (the sprite fields only feed CSS). *)
Record toy_size : Type := ToySize { size_w : Z; size_h : Z }.

(** A live [setInterval] created by [moveObject]: its handle and the values
    its closure captured. *)
Record timer : Type := Timer {
  tid : nat; town : obj_id; tkey : move_key; ttarget : Z; tperiod : Z;
  tnext : option cb }.

Record state : Type := {
  objs : obj_id -> wobj;
  dm : dims;
  toys : list (string * toy_size);     (* g.toys *)
  sortedToys : list string;            (* g.sortedToys *)
  toyEls : list obj_id;                (* g.toyEls *)
  targetToy : option obj_id;           (* g.targetToy *)
  collectedNumber : Z;                 (* g.collectedNumber *)
  turnUsed : bool;                     (* g.turnUsed *)
  remainingTurns : Z;                  (* g.remainingTurns *)
  intervals : list nat;                (* g.intervals *)
  timers : list timer;                 (* live intervals of the browser *)
  timeouts : list (nat * Z * cb);      (* pending timeouts: handle, delay, body *)
  next_handle : nat;                   (* next timer handle (handles are > 0) *)
  horiBtn : button;
  vertBtn : button;
  arrowActive : bool;                  (* collection-arrow 'active' class *)
  trace : list event
}.

Definition set_objs v (s : state) : state :=
  {| objs := v; dm := dm s; toys := toys s; sortedToys := sortedToys s;
     toyEls := toyEls s; targetToy := targetToy s;
     collectedNumber := collectedNumber s; turnUsed := turnUsed s;
     remainingTurns := remainingTurns s; intervals := intervals s;
     timers := timers s; timeouts := timeouts s; next_handle := next_handle s;
     horiBtn := horiBtn s; vertBtn := vertBtn s; arrowActive := arrowActive s;
     trace := trace s |}.
Definition set_catalog ts st (s : state) : state :=
  {| objs := objs s; dm := dm s; toys := ts; sortedToys := st;
     toyEls := toyEls s; targetToy := targetToy s;
     collectedNumber := collectedNumber s; turnUsed := turnUsed s;
     remainingTurns := remainingTurns s; intervals := intervals s;
     timers := timers s; timeouts := timeouts s; next_handle := next_handle s;
     horiBtn := horiBtn s; vertBtn := vertBtn s; arrowActive := arrowActive s;
     trace := trace s |}.
Definition set_toyEls v (s : state) : state :=
  {| objs := objs s; dm := dm s; toys := toys s; sortedToys := sortedToys s;
     toyEls := v; targetToy := targetToy s;
     collectedNumber := collectedNumber s; turnUsed := turnUsed s;
     remainingTurns := remainingTurns s; intervals := intervals s;
     timers := timers s; timeouts := timeouts s; next_handle := next_handle s;
     horiBtn := horiBtn s; vertBtn := vertBtn s; arrowActive := arrowActive s;
     trace := trace s |}.
Definition set_targetToy v (s : state) : state :=
  {| objs := objs s; dm := dm s; toys := toys s; sortedToys := sortedToys s;
     toyEls := toyEls s; targetToy := v;
     collectedNumber := collectedNumber s; turnUsed := turnUsed s;
     remainingTurns := remainingTurns s; intervals := intervals s;
     timers := timers s; timeouts := timeouts s; next_handle := next_handle s;
     horiBtn := horiBtn s; vertBtn := vertBtn s; arrowActive := arrowActive s;
     trace := trace s |}.
Definition set_collected v (s : state) : state :=
  {| objs := objs s; dm := dm s; toys := toys s; sortedToys := sortedToys s;
     toyEls := toyEls s; targetToy := targetToy s;
     collectedNumber := v; turnUsed := turnUsed s;
     remainingTurns := remainingTurns s; intervals := intervals s;
     timers := timers s; timeouts := timeouts s; next_handle := next_handle s;
     horiBtn := horiBtn s; vertBtn := vertBtn s; arrowActive := arrowActive s;
     trace := trace s |}.
Definition set_turns used rem (s : state) : state :=
  {| objs := objs s; dm := dm s; toys := toys s; sortedToys := sortedToys s;
     toyEls := toyEls s; targetToy := targetToy s;
     collectedNumber := collectedNumber s; turnUsed := used;
     remainingTurns := rem; intervals := intervals s;
     timers := timers s; timeouts := timeouts s; next_handle := next_handle s;
     horiBtn := horiBtn s; vertBtn := vertBtn s; arrowActive := arrowActive s;
     trace := trace s |}.
Definition set_handles ivs ts tos nh (s : state) : state :=
  {| objs := objs s; dm := dm s; toys := toys s; sortedToys := sortedToys s;
     toyEls := toyEls s; targetToy := targetToy s;
     collectedNumber := collectedNumber s; turnUsed := turnUsed s;
     remainingTurns := remainingTurns s; intervals := ivs;
     timers := ts; timeouts := tos; next_handle := nh;
     horiBtn := horiBtn s; vertBtn := vertBtn s; arrowActive := arrowActive s;
     trace := trace s |}.
Definition set_ui hb vb ar (s : state) : state :=
  {| objs := objs s; dm := dm s; toys := toys s; sortedToys := sortedToys s;
     toyEls := toyEls s; targetToy := targetToy s;
     collectedNumber := collectedNumber s; turnUsed := turnUsed s;
     remainingTurns := remainingTurns s; intervals := intervals s;
     timers := timers s; timeouts := timeouts s; next_handle := next_handle s;
     horiBtn := hb; vertBtn := vb; arrowActive := ar;
     trace := trace s |}.
Definition push_trace e (s : state) : state :=
  {| objs := objs s; dm := dm s; toys := toys s; sortedToys := sortedToys s;
     toyEls := toyEls s; targetToy := targetToy s;
     collectedNumber := collectedNumber s; turnUsed := turnUsed s;
     remainingTurns := remainingTurns s; intervals := intervals s;
     timers := timers s; timeouts := timeouts s; next_handle := next_handle s;
     horiBtn := horiBtn s; vertBtn := vertBtn s; arrowActive := arrowActive s;
     trace := e :: trace s |}.

(** Mutating one object through its reference. *)
Definition upd_obj (o : obj_id) (f : wobj -> wobj) (s : state) : state :=
  set_objs (fun p => if obj_id_eq_dec p o then f (objs s p) else objs s p) s.

(** ** Browser timers *)

Definition find_timer (id : nat) (l : list timer) : option timer :=
  find (fun t => Nat.eqb (tid t) id) l.

(** [clearInterval(id)]. *)
Definition clearInterval (id : nat) (s : state) : state :=
  set_handles (intervals s) (filter (fun t => negb (Nat.eqb (tid t) id)) (timers s))
    (timeouts s) (next_handle s) s.

(** [setTimeout(body, delay)]. *)
Definition setTimeout (c : cb) (delay : Z) (s : state) : state :=
  set_handles (intervals s) (timers s) ((next_handle s, delay, c) :: timeouts s)
    (S (next_handle s)) s.

(** [gameRef.current.intervals.add] / [.delete]. *)
Definition intervals_add (id : nat) (s : state) : state :=
  set_handles (id :: intervals s) (timers s) (timeouts s) (next_handle s) s.
Definition intervals_delete (id : nat) (s : state) : state :=
  set_handles (filter (fun j => negb (Nat.eqb j id)) (intervals s)) (timers s)
    (timeouts s) (next_handle s) s.

(** ** The movement scheduler (lines 96-138) *)

Definition clearObjInterval (o : obj_id) (s : state) : state :=
  match interval (objs s o) with
  | Some id => upd_obj o (set_interval None) (intervals_delete id (clearInterval id s))
  | None => s
  end.

Record move_opts : Type := MoveOpts {
  moveKey : move_key; target : option Z; moveTime : option Z; next : option cb }.

(** [moveTime || 100]. *)
Definition period_of (t : option Z) : Z :=
  match t with Some p => if p =? 0 then 100 else p | None => 100 end.

(** The [else] branch of [moveObject]: [setInterval] with the tick closure,
    then [obj.interval = id; gameRef.current.intervals.add(id)]. *)
Definition start_move (o : obj_id) (opts : move_opts) (s : state) : state :=
  let moveTarget := match target opts with
                    | Some t => t
                    | None => default_of (moveKey opts) (objs s o) end in
  let id := next_handle s in
  let s1 := set_handles (intervals s)
              (Timer id o (moveKey opts) moveTarget (period_of (moveTime opts)) (next opts)
                 :: timers s) (timeouts s) (S id) s in
  intervals_add id (upd_obj o (set_interval (Some id)) s1).

(** [moveObject], given how to run a callback. *)
Definition moveObject_ (run : cb -> state -> state) (o : obj_id) (opts : move_opts)
    (s : state) : state :=
  match interval (objs s o) with
  | Some _ =>
      let s1 := clearObjInterval o s in
      match next opts with Some c => run c s1 | None => s1 end
  | None => start_move o opts s
  end.

(** [resumeMove]: forget the handle (without clearing it), then move. *)
Definition resumeMove_ (run : cb -> state -> state) (o : obj_id) (opts : move_opts)
    (s : state) : state :=
  moveObject_ run o opts (upd_obj o (set_interval None) s).

(** The step computed by one tick of the interval (lines 111-115). *)
Definition step_distance (cur moveTarget : Z) : Z :=
  if Z.abs (cur - moveTarget) <? 10 then Z.abs (cur - moveTarget) else 10.
Definition step_increment (cur moveTarget : Z) : Z :=
  if cur >? moveTarget then - step_distance cur moveTarget
  else step_distance cur moveTarget.
Definition should_move (cur moveTarget : Z) : bool :=
  if step_increment cur moveTarget >? 0 then cur <? moveTarget else cur >? moveTarget.

(** [obj.moveWith.forEach(m => { if (!m) return; m[key'] += increment })]. *)
Definition propagate (k : move_key) (increment : Z) (l : list (option obj_id))
    (s : state) : state :=
  fold_left (fun s m =>
      match m with
      | None => s
      | Some p => upd_obj p (fun mo => set_key (prop_key k)
                                         (get_key (prop_key k) mo + increment) mo) s
      end) l s.

(** One firing of the interval with handle [id] (lines 110-129).  A cleared
    interval never fires. *)
Definition tick_ (run : cb -> state -> state) (id : nat) (s : state) : state :=
  match find_timer id (timers s) with
  | None => s
  | Some t =>
      let o := town t in
      let k := tkey t in
      let cur := get_key k (objs s o) in
      let increment := step_increment cur (ttarget t) in
      if should_move cur (ttarget t) then
        let s1 := upd_obj o (set_key k (cur + increment)) s in
        propagate k increment (moveWith (objs s1 o)) s1
      else
        let s1 := clearObjInterval o s in
        match tnext t with Some c => run c s1 | None => s1 end
  end.

(** ** Targeting (lines 238-257) *)

Record rect : Type := Rect { rx : Z; ry : Z; rw : Z; rh : Z }.
Definition rect_of (o : wobj) : rect := Rect (x o) (y o) (w o) (h o).

(** [doOverlap(a, b)]: the point [(b.x, b.y)] strictly inside [a]. *)
Definition doOverlap (a b : rect) : bool :=
  (rx b >? rx a) && (rx b <? rx a + rw a) && (ry b >? ry a) && (ry b <? ry a + rh a).

(** The claw footprint built by [getClosestToy]. *)
Definition claw_rect (s : state) : rect :=
  let aj := objs s ArmJoint in
  {| ry := y aj + maxArmLength (dm s) + MACHINE_BUFFER_y + 7;
     rx := x aj + 7; rw := 40; rh := 32 |}.

(** [overlapped.sort((a, b) => b.index - a.index)]: the stable sort by
    decreasing [index], as insertion sort. *)
Fixpoint insert_by_index (s : state) (t : obj_id) (l : list obj_id) : list obj_id :=
  match l with
  | [] => [t]
  | u :: r => if index (objs s u) <=? index (objs s t) then t :: l
              else u :: insert_by_index s t r
  end.
Fixpoint sort_by_index (s : state) (l : list obj_id) : list obj_id :=
  match l with
  | [] => []
  | t :: r => insert_by_index s t (sort_by_index s r)
  end.

Definition getClosestToy (s : state) : state :=
  let claw := claw_rect s in
  let overlapped := filter (fun t => doOverlap (rect_of (objs s t)) claw) (toyEls s) in
  match sort_by_index s overlapped with
  | [] => s
  | t :: _ =>
      let s1 := upd_obj t (fun o => set_origin (OPoint (rx claw - x o) (ry claw - y o)) o) s in
      let s2 := upd_obj t (set_clawPos (Some (rx claw, ry claw))) s1 in
      set_targetToy (Some t) s2
  end.

(** ** Buttons and the arm sequencer (lines 259-385) *)

Definition activateBtn (b : button) : button := Button true false.
Definition deactivateBtn (b : button) : button := Button false true.

Definition activateHoriBtn (s : state) : state :=
  if remainingTurns s <=? 0 then s
  else
    let s1 := set_turns false (remainingTurns s) s in
    let s2 := set_ui (activateBtn (horiBtn s1)) (vertBtn s1) (arrowActive s1) s1 in
    clearObjInterval Arm (clearObjInterval ArmJoint (clearObjInterval VertRail s2)).

Definition stopHoriBtnAndActivateVertBtn (s : state) : state :=
  let s1 := upd_obj ArmJoint (set_interval None) s in
  set_ui (deactivateBtn (horiBtn s1)) (activateBtn (vertBtn s1)) (arrowActive s1) s1.

(** [setRotateAngle]: the arguments of [Math.atan2] are recorded. *)
Definition setRotateAngle (t : obj_id) (s : state) : state :=
  upd_obj t (fun o =>
    match clawPos o with
    | Some (cx, cy) => set_angle (FromAtan2 (y o + h o / 2 - cy) (x o + w o / 2 - cx)) o
    | None => o
    end) s.

Definition attach_all (v : option obj_id) (s : state) : state :=
  upd_obj Arm (fun o => set_moveWith (set_first v (moveWith o)) o)
    (upd_obj ArmJoint (fun o => set_moveWith (set_first v (moveWith o)) o)
       (upd_obj VertRail (fun o => set_moveWith (set_first v (moveWith o)) o) s)).

Definition grabToy (s : state) : state :=
  match targetToy s with
  | Some t =>
      let s1 := attach_all (Some t) s in
      let s2 := setRotateAngle t s1 in
      upd_obj t (fun o => set_classList (add_class "grabbed"%string (classList o)) o) s2
  | None => upd_obj Arm (fun o => set_classList (add_class "missed"%string (classList o)) o) s
  end.

Definition dropToy (run : cb -> state -> state) (s : state) : state :=
  let s1 := upd_obj Arm (fun o => set_classList (add_class "open"%string (classList o)) o) s in
  let s2 :=
    match targetToy s1 with
    | Some t =>
        let s' := upd_obj t (set_z 3) s1 in
        let s'' := moveObject_ run t
                     (MoveOpts KY (Some (machineHeight (dm s') - h (objs s' t) - 30))
                        (Some 50) None) s' in
        attach_all None s''
    | None => s1
    end in
  setTimeout CbDropEnd 700 s2.

(** The [setTimeout(…, 700)] body of [dropToy]. *)
Definition dropEnd (s : state) : state :=
  let s1 := upd_obj Arm (fun o => set_classList (remove_class "open"%string (classList o)) o) s in
  let s2 := set_turns true (remainingTurns s1 - 1) s1 in
  let s3 := push_trace TurnComplete s2 in
  let s4 := activateHoriBtn s3 in
  match targetToy s4 with
  | Some t =>
      let s5 := upd_obj t (fun o => set_classList (add_class "selected"%string (classList o)) o) s4 in
      set_targetToy None (set_ui (horiBtn s5) (vertBtn s5) true s5)
  | None => s4
  end.

Definition onHoriBtnDown (run : cb -> state -> state) (s : state) : state :=
  let s1 := upd_obj Arm (fun o => set_classList (remove_class "missed"%string (classList o)) o) s in
  moveObject_ run VertRail
    (MoveOpts KX (Some (machineWidth (dm s1) - w (objs s1 ArmJoint) - MACHINE_BUFFER_x))
       None (Some CbStopHori)) s1.

Definition onHoriBtnUp (s : state) : state :=
  stopHoriBtnAndActivateVertBtn (clearObjInterval VertRail s).

Definition onVertBtnDown (run : cb -> state -> state) (s : state) : state :=
  if locked (vertBtn s) then s
  else moveObject_ run ArmJoint (MoveOpts KY (Some MACHINE_BUFFER_y) None None) s.

Definition onVertBtnUp (s : state) : state :=
  let s1 := clearObjInterval ArmJoint s in
  let s2 := set_ui (horiBtn s1) (deactivateBtn (vertBtn s1)) (arrowActive s1) s1 in
  setTimeout CbVertUpDelay 500 (getClosestToy s2).

(** ** Toys (lines 142-224) *)

Fixpoint lookup_toy (ty : string) (l : list (string * toy_size)) : option toy_size :=
  match l with
  | [] => None
  | (n, sz) :: r => if String.eqb n ty then Some sz else lookup_toy ty r
  end.

(** [createToy(index)], with the two [randomN] jitters given as [jit]. *)
Definition createToy (jit : Z * Z) (i : nat) (s : state) : state :=
  match nth_error (sortedToys s) i with
  | None => s
  | Some ty =>
    match lookup_toy ty (toys s) with
    | None => s
    | Some sz =>
      let d := dm s in
      let zi := Z.of_nat i in
      let x0 := CORNER_BUFFER + calcX zi 4 * ((machineWidth d - CORNER_BUFFER * 3) / 4)
                + size_w sz / 2 + fst jit in
      let y0 := machineBottomTop d - machineTop d + CORNER_BUFFER
                + calcY zi 4 * ((machineBottomHeight d - CORNER_BUFFER * 2) / 3)
                - size_h sz / 2 + snd jit in
      let toy := {| x := x0; y := y0; z := 0; w := size_w sz; h := size_h sz;
                    angle := Deg 0; transformOrigin := OPoint 0 0; interval := None;
                    default := Pose x0 y0 (size_w sz) (size_h sz); moveWith := [];
                    toyType := ty; index := zi; clawPos := None;
                    classList := ["toy"%string; "pix"%string; ty] |} in
      set_toyEls (toyEls s ++ [ToyObj i])
        (set_objs (fun p => if obj_id_eq_dec p (ToyObj i) then toy else objs s p) s)
    end
  end.

Definition collectToy (t : obj_id) (s : state) : state :=
  let d := dm s in
  let s1 := upd_obj t (fun o =>
              set_classList (add_class "display"%string (remove_class "selected"%string (classList o)))
                (set_origin (ONamed "center"%string)
                   (set_z 7 (set_y (machineHeight d / 2 - h o / 2)
                               (set_x (machineWidth d / 2 - w o / 2) o))))) s in
  let s2 := set_collected (collectedNumber s1 + 1) s1 in
  let s3 := push_trace (CollectRequest (toyType (objs s2 t))) s2 in
  setTimeout CbArrow 1000 s3.

(** The [setTimeout(…, 1000)] body of [collectToy]. *)
Definition arrowCheck (s : state) : state :=
  if existsb (fun t => existsb (String.eqb "selected"%string) (classList (objs s t))) (toyEls s)
  then s
  else set_ui (horiBtn s) (vertBtn s) false s.

(** ** Running callbacks *)

Definition cb_body (run : cb -> state -> state) (c : cb) (s : state) : state :=
  match c with
  | CbUser _ => s
  | CbStopHori => stopHoriBtnAndActivateVertBtn s
  | CbInitJoint =>
      resumeMove_ run VertRail (MoveOpts KX (Some MACHINE_BUFFER_x) (Some 50) (Some CbInitRail)) s
  | CbInitRail =>
      let mth := machineTopHeight (dm s) in
      let s1 := upd_obj ArmJoint (fun o =>
                  set_default (Pose MACHINE_BUFFER_x (mth - MACHINE_BUFFER_y)
                                 (dw (default o)) (dh (default o))) o) s in
      let s2 := upd_obj VertRail (fun o =>
                  set_default (Pose MACHINE_BUFFER_x (dy (default o))
                                 (dw (default o)) (dh (default o))) o) s1 in
      activateHoriBtn s2
  | CbVertUpDelay =>
      let s1 := upd_obj Arm (fun o => set_classList (add_class "open"%string (classList o)) o) s in
      moveObject_ run Arm (MoveOpts KH (Some (maxArmLength (dm s1))) None (Some CbArmExtended)) s1
  | CbArmExtended => setTimeout CbGrab 500 s
  | CbGrab =>
      let s1 := upd_obj Arm (fun o => set_classList (remove_class "open"%string (classList o)) o) s in
      resumeMove_ run Arm (MoveOpts KH None None (Some CbArmRetracted)) (grabToy s1)
  | CbArmRetracted => resumeMove_ run VertRail (MoveOpts KX None None (Some CbRailReturned)) s
  | CbRailReturned => resumeMove_ run ArmJoint (MoveOpts KY None None (Some CbDropToy)) s
  | CbDropToy => dropToy run s
  | CbDropEnd => dropEnd s
  | CbArrow => arrowCheck s
  end.

(** Callbacks run synchronously inside one another at most two deep in
    this component ([moveObject]'s cancel branch inside a timeout body);
    [invoke] is given more fuel than that. *)
Fixpoint invoke (fuel : nat) (c : cb) (s : state) : state :=
  match fuel with
  | O => s
  | S f => cb_body (invoke f) c (push_trace (Fired c) s)
  end.

Definition run_cb : cb -> state -> state := invoke 4.
Definition moveObject := moveObject_ run_cb.
Definition resumeMove := resumeMove_ run_cb.
Definition tick := tick_ run_cb.

(** ** Mount and the event loop (lines 389-489) *)

Definition blank_obj : wobj :=
  {| x := 0; y := 0; z := 0; w := 0; h := 0; angle := Deg 0;
     transformOrigin := OPoint 0 0; interval := None; default := Pose 0 0 0 0;
     moveWith := []; toyType := ""%string; index := 0; clawPos := None; classList := [] |}.

(** [createWorldObject(el)] for an element measured [ew] by [eh]. *)
Definition createWorldObject (cls : list string) (ew eh : Z) : wobj :=
  {| x := 0; y := 0; z := 0; w := ew; h := eh; angle := Deg 0;
     transformOrigin := OPoint 0 0; interval := None; default := Pose 0 0 ew eh;
     moveWith := []; toyType := ""%string; index := 0; clawPos := None; classList := cls |}.

(** The mount effect, given the measured layout. *)
Definition mount (mw mh mt mth mbh mbt : Z) (aj vr ar : Z * Z) : state :=
  let d := Dims mw mh mt mth mbh mbt (mbt - mt - MACHINE_BUFFER_y) in
  let armJoint := createWorldObject ["arm-joint"; "pix"]%string (fst aj) (snd aj) in
  let vertRail := set_moveWith [None; Some ArmJoint]
                    (createWorldObject ["rail"; "vert"; "pix"]%string (fst vr) (snd vr)) in
  let arm := createWorldObject ["arm"; "pix"]%string (fst ar) (snd ar) in
  let s0 := {| objs := fun p => match p with
                               | ArmJoint => armJoint | VertRail => vertRail
                               | Arm => arm | ToyObj _ => blank_obj end;
               dm := d; toys := []; sortedToys := []; toyEls := []; targetToy := None;
               collectedNumber := 0; turnUsed := false; remainingTurns := 0;
               intervals := []; timers := []; timeouts := []; next_handle := 1;
               horiBtn := Button false true; vertBtn := Button false true;
               arrowActive := false; trace := [] |} in
  moveObject ArmJoint (MoveOpts KY (Some (mth - MACHINE_BUFFER_y)) (Some 50) (Some CbInitJoint)) s0.

Inductive input : Type :=
| HoriDown | HoriUp | VertDown | VertUp
| IntervalFires (id : nat)
| TimeoutFires (id : nat)
| ClickToy (i : nat)
| TurnsUpdated (turns : Z)
| ToysFetched (cat : list (string * toy_size)) (picks : list string) (jit : list (Z * Z)).

(** The grid cells filled after the catalog fetch: all but index 8. *)
Definition spawn_slots : list nat := [0; 1; 2; 3; 4; 5; 6; 7; 9; 10; 11]%nat.

Definition fire_timeout (id : nat) (s : state) : state :=
  match find (fun e => Nat.eqb (fst (fst e)) id) (timeouts s) with
  | None => s
  | Some (_, _, c) =>
      run_cb c (set_handles (intervals s) (timers s)
                  (filter (fun e => negb (Nat.eqb (fst (fst e)) id)) (timeouts s))
                  (next_handle s) s)
  end.

Definition obj_in (o : obj_id) (l : list obj_id) : bool :=
  existsb (fun p => if obj_id_eq_dec p o then true else false) l.

Definition step (i : input) (s : state) : state :=
  match i with
  | HoriDown => onHoriBtnDown run_cb s
  | HoriUp => onHoriBtnUp s
  | VertDown => onVertBtnDown run_cb s
  | VertUp => onVertBtnUp s
  | IntervalFires id => tick id s
  | TimeoutFires id => fire_timeout id s
  | ClickToy n => if obj_in (ToyObj n) (toyEls s) then collectToy (ToyObj n) s else s
  | TurnsUpdated n => set_turns (turnUsed s) n s
  | ToysFetched cat picks jit =>
      let s1 := set_catalog (rev cat ++ toys s) picks s in
      fold_left (fun s n => createToy (nth n jit (0, 0)) n s) spawn_slots s1
  end.

Definition run_inputs (l : list input) (s : state) : state :=
  fold_left (fun s i => step i s) l s.

Inductive reachable : state -> Prop :=
| reach_mount mw mh mt mth mbh mbt aj vr ar :
    reachable (mount mw mh mt mth mbh mbt aj vr ar)
| reach_step i s : reachable s -> reachable (step i s).
(** Fires the live intervals, oldest handle last, until none is left
    (or the fuel runs out). *)
Fixpoint drain_intervals (fuel : nat) (s : state) : state :=
  match fuel with
  | O => s
  | S f => match timers s with
           | t :: _ => drain_intervals f (tick (tid t) s)
           | [] => s
           end
  end.

Definition first_timeout (s : state) : nat :=
  match timeouts s with (id, _, _) :: _ => id | [] => O end.

(** One full turn as a player plays it: press and release the horizontal
    button, press the vertical one, let the joint run to its stop, release
    it, then let every timeout and interval of the sequencer fire in order
    (arm down, grab, arm up, rail back, joint back, drop, end of turn). *)
Definition play_turn (s : state) : state :=
  let s1 := run_inputs [HoriDown; HoriUp; VertDown] s in
  let s2 := step VertUp (drain_intervals 100 s1) in
  let s3 := drain_intervals 100 (step (TimeoutFires (first_timeout s2)) s2) in
  let s4 := step (TimeoutFires (first_timeout s3)) s3 in
  let s5 := drain_intervals 200 s4 in
  drain_intervals 200 (step (TimeoutFires (first_timeout s5)) s5).

(** ** Counting and comparing *)

Definition cb_eq_dec (a b : cb) : {a = b} + {a <> b}.
Proof. decide equality; apply Nat.eq_dec. Defined.
Definition event_eq_dec (a b : event) : {a = b} + {a <> b}.
Proof. decide equality; [apply cb_eq_dec | apply string_dec]. Defined.
Definition opt_obj_eq_dec (a b : option obj_id) : {a = b} + {a <> b}.
Proof. decide equality; apply obj_id_eq_dec. Defined.

(** How many times callback [c] has run. *)
Definition count_fired (c : cb) (tr : list event) : nat :=
  count_occ event_eq_dec tr (Fired c).
(** How many times [p] occurs in an attached-object list. *)
Definition count_some (p : obj_id) (l : list (option obj_id)) : Z :=
  Z.of_nat (count_occ opt_obj_eq_dec l (Some p)).

Definition key_eqb (a b : move_key) : bool :=
  match a, b with KX, KX | KY, KY | KH, KH => true | _, _ => false end.

(** The attributes of an object that no movement tick writes. *)
Definition frame_obj (o1 o2 : wobj) : Prop :=
  z o1 = z o2 /\ w o1 = w o2 /\ angle o1 = angle o2 /\
  transformOrigin o1 = transformOrigin o2 /\ interval o1 = interval o2 /\
  default o1 = default o2 /\ moveWith o1 = moveWith o2 /\ toyType o1 = toyType o2 /\
  index o1 = index o2 /\ clawPos o1 = clawPos o2 /\ classList o1 = classList o2.

(** ** A concrete session

    A 600x800 machine whose lower cavity starts at 500, one catalog entry of
    40x40, no jitter; the player gets one turn, presses and releases both
    buttons once, and the claw comes down over toy 0; then the player plays
    another turn. *)
Module Session.
Definition mounted := mount 600 800 0 200 300 500 (60, 40) (20, 200) (40, 60).
Definition catalog := [("bear"%string, ToySize 40 40)].
Definition intro_done := drain_intervals 100 mounted.
Definition joint_moving :=
  run_inputs [TurnsUpdated 1; ToysFetched catalog (repeat "bear"%string 12) [];
              HoriDown; HoriUp; VertDown] intro_done.
Definition targeted := step VertUp (drain_intervals 100 joint_moving).
Definition extended := drain_intervals 100 (step (TimeoutFires (first_timeout targeted)) targeted).
Definition grabbed := step (TimeoutFires (first_timeout extended)) extended.
Definition returned := drain_intervals 200 grabbed.
Definition turn_over := drain_intervals 200 (step (TimeoutFires (first_timeout returned)) returned).
(** With no turn left, the player plays once more. *)
Definition extra_turn := play_turn turn_over.
End Session.

(** ** Spec-side reading of the angle rule (section 4.3), for comparison
    with [rotation_of]: fold into [0, 360), keep values below 180, map the
    others to [value - 360]. *)
Definition spec_angle_rule (theta : Z) : Z :=
  let a := theta mod 360 in
  if a <? 180 then a else a - 360.

(** The spec's overlap condition on a toy and the claw anchor. *)
Definition strictly_inside (t : wobj) (c : rect) : Prop :=
  x t < rx c < x t + w t /\ y t < ry c < y t + h t.

(** ** Shape of the attached lists

    A slot of an attached list holds nothing or a toy. *)
Definition toy_slot (e : option obj_id) : Prop := e = None \/ exists i, e = Some (ToyObj i).
Definition is_toy (o : obj_id) : Prop := exists i, o = ToyObj i.
Definition list_shape (l : list (option obj_id)) : Prop :=
  l = [] \/ exists e, l = [e] /\ toy_slot e.

(** The rail's list is [[slot; armJoint]]; the joint's and the arm's have
    at most one slot; a toy's list is empty. *)
Definition attach_shape (s : state) : Prop :=
  (exists e, moveWith (objs s VertRail) = [e; Some ArmJoint] /\ toy_slot e) /\
  list_shape (moveWith (objs s ArmJoint)) /\ list_shape (moveWith (objs s Arm)) /\
  (forall i, moveWith (objs s (ToyObj i)) = []).

Definition claw_inv (s : state) : Prop :=
  attach_shape s /\ (forall t, In t (toyEls s) -> is_toy t) /\
  (forall t, targetToy s = Some t -> is_toy t).

(** [s1] has the attached lists, toy elements and target of [s2]. *)
Definition keeps (s1 s2 : state) : Prop :=
  (forall p, moveWith (objs s1 p) = moveWith (objs s2 p)) /\
  toyEls s1 = toyEls s2 /\ targetToy s1 = targetToy s2.

(** ** Frames

    The position of an object (its [x], [y], [w], [h]). *)
Definition pos_of (o : wobj) : Z * Z * Z * Z := (x o, y o, w o, h o).

(** Same positions everywhere. *)
Definition pos_eq (s1 s2 : state) : Prop :=
  forall p, pos_of (objs s1 p) = pos_of (objs s2 p).
(** Same positions and the same attached lists everywhere. *)
Definition pm_eq (s1 s2 : state) : Prop :=
  forall p, pos_of (objs s1 p) = pos_of (objs s2 p) /\
            moveWith (objs s1 p) = moveWith (objs s2 p).

(** The interval [id] is the one moving attribute [k] of [o] toward [T]. *)
Definition driving (id : nat) (o : obj_id) (k : move_key) (T : Z) (nx : option cb)
    (s : state) : Prop :=
  (exists p, find_timer id (timers s) = Some (Timer id o k T p nx)) /\
  interval (objs s o) = Some id /\ ~ In (Some o) (moveWith (objs s o)).

(** ** Timing, invariants and teardown *)

(** The position after [j] moving firings of a [moveObject] interval that
    starts at [cur] and heads for [T] in steps of at most 10. *)
Definition glide (cur T : Z) (j : nat) : Z :=
  if cur <=? T then Z.min T (cur + 10 * Z.of_nat j) else Z.max T (cur - 10 * Z.of_nat j).

(** The number of moving firings: [ceil(|cur - T| / 10)]. *)
Definition moving_ticks (cur T : Z) : nat := Z.to_nat ((Z.abs (cur - T) + 9) / 10).

(** The grid cells that get a toy after the catalog fetch: the spawn slots
    whose pick names an entry of the catalog. *)
Definition spawned (cat : list (string * toy_size)) (picks : list string) : list nat :=
  filter (fun n => match nth_error picks n with
                   | Some ty => match lookup_toy ty cat with Some _ => true | None => false end
                   | None => false
                   end) spawn_slots.

(** The collect requests sent so far. *)
Definition is_request (e : event) : bool :=
  match e with CollectRequest _ => true | _ => false end.
Definition count_requests (tr : list event) : nat := List.length (filter is_request tr).

(** Every live interval's handle is in [g.intervals]. *)
Definition tracked (s : state) : Prop :=
  forall t, In t (timers s) -> In (tid t) (intervals s).
(** Every toy element sits at a spawn slot, carries that slot as its index
    and has a type found in [g.toys]. *)
Definition toy_ok (s : state) : Prop :=
  forall t, In t (toyEls s) ->
    exists n, t = ToyObj n /\ In n spawn_slots /\ index (objs s t) = Z.of_nat n /\
              lookup_toy (toyType (objs s t)) (toys s) <> None.
Definition collected_ok (s : state) : Prop :=
  collectedNumber s = Z.of_nat (count_requests (trace s)).
Definition game_inv (s : state) : Prop := tracked s /\ toy_ok s /\ collected_ok s.

(** [s1] agrees with [s2] on what [game_inv] reads, and is tracked when
    [s2] is. *)
Definition gkeeps (s1 s2 : state) : Prop :=
  (forall p, index (objs s1 p) = index (objs s2 p) /\ toyType (objs s1 p) = toyType (objs s2 p)) /\
  toyEls s1 = toyEls s2 /\ toys s1 = toys s2 /\ collectedNumber s1 = collectedNumber s2 /\
  count_requests (trace s1) = count_requests (trace s2) /\ (tracked s2 -> tracked s1).

(** The unmount cleanup of the mount effect (lines 485-488):
    [g.intervals.forEach((id) => clearInterval(id))]. *)
Definition unmount (s : state) : state :=
  fold_left (fun s id => clearInterval id s) (intervals s) s.

(** * Proofs *)

Lemma adjustAngle_mod (a : Z) : adjustAngle a = a mod 360.
Proof.
  unfold adjustAngle.
  pose proof (Z.quot_rem' a 360) as Hq.
  pose proof (Z.rem_bound_abs a 360 ltac:(lia)) as Hb.
  destruct (Z.ltb_spec (Z.rem a 360) 0) as [Hn | Hn].
  - apply (Z.mod_unique a 360 (Z.quot a 360 - 1)); lia.
  - apply (Z.mod_unique a 360 (Z.quot a 360)); lia.
Qed.

Lemma rotation_of_neg_rule (theta : Z) : rotation_of theta = - spec_angle_rule theta.
Proof.
  unfold rotation_of, spec_angle_rule; rewrite adjustAngle_mod.
  destruct (theta mod 360 <? 180); lia.
Qed.

(** C3 (counterexample): at 90 degrees the stored rotation is -90, while the
    rule of the claim gives 90. *)
Lemma rotation_of_90_counterexample :
  rotation_of 90 = -90 /\ spec_angle_rule 90 = 90 /\ rotation_of 90 <> spec_angle_rule 90.
Proof. vm_compute. split; [reflexivity | split; [reflexivity | discriminate]]. Qed.

(** C3 (amended): the stored rotation of [setRotateAngle] is the negation
    of the claimed rule: fold into [0, 360), map values below 180 to
    [-value] and the others to [360 - value].  It lies in (-180, 180] and
    has period 360. *)
Theorem rotation_of_spec (theta : Z) :
  rotation_of theta = - spec_angle_rule theta /\
  (let a := theta mod 360 in
   rotation_of theta = if a <? 180 then - a else 360 - a) /\
  -180 < rotation_of theta <= 180 /\
  (forall k, rotation_of (theta + 360 * k) = rotation_of theta).
Proof.
  split; [apply rotation_of_neg_rule |].
  split.
  { unfold rotation_of; rewrite adjustAngle_mod; cbv zeta.
    destruct (theta mod 360 <? 180); lia. }
  split.
  - unfold rotation_of; rewrite adjustAngle_mod.
    pose proof (Z.mod_pos_bound theta 360 ltac:(lia)).
    destruct (Z.ltb_spec (theta mod 360) 180); lia.
  - intro k. unfold rotation_of; rewrite !adjustAngle_mod.
    rewrite (Z.mul_comm 360 k), Z.mod_add by lia. reflexivity.
Qed.

(** ** Targeting *)

Lemma doOverlap_iff (a b : rect) :
  doOverlap a b = true <-> rx a < rx b < rx a + rw a /\ ry a < ry b < ry a + rh a.
Proof.
  unfold doOverlap. rewrite !andb_true_iff, !Z.gtb_lt, !Z.ltb_lt. tauto.
Qed.

Lemma insert_by_index_in (s : state) (a u : obj_id) (l : list obj_id) :
  In u (insert_by_index s a l) <-> a = u \/ In u l.
Proof.
  induction l as [| b r IH]; simpl; [tauto |].
  destruct (index (objs s b) <=? index (objs s a)); simpl; [tauto |].
  rewrite IH. tauto.
Qed.

Lemma sort_by_index_in (s : state) (u : obj_id) (l : list obj_id) :
  In u (sort_by_index s l) <-> In u l.
Proof.
  induction l as [| a r IH]; simpl; [tauto |].
  rewrite insert_by_index_in, IH. intuition.
Qed.

(** The head of the sorted list carries the greatest index. *)
Lemma sort_by_index_head (s : state) (l : list obj_id) :
  match sort_by_index s l with
  | [] => l = []
  | t :: _ => In t l /\ forall u, In u l -> index (objs s u) <= index (objs s t)
  end.
Proof.
  induction l as [| a r IH]; simpl; [reflexivity |].
  destruct (sort_by_index s r) as [| t rest] eqn:E.
  - subst r. simpl. split; [left; reflexivity | intros u [<- | []]; lia].
  - destruct IH as [Ht Hmax]. simpl.
    destruct (Z.leb_spec (index (objs s t)) (index (objs s a))) as [Hle | Hlt].
    + split; [left; reflexivity |].
      intros u [<- | Hu]; [lia | specialize (Hmax u Hu); lia].
    + split; [right; exact Ht |].
      intros u [<- | Hu]; [lia | apply Hmax; exact Hu].
Qed.

Lemma filter_overlap_in (s : state) (u : obj_id) :
  In u (filter (fun t => doOverlap (rect_of (objs s t)) (claw_rect s)) (toyEls s)) <->
  In u (toyEls s) /\ strictly_inside (objs s u) (claw_rect s).
Proof.
  rewrite filter_In, doOverlap_iff. unfold strictly_inside, rect_of. simpl. tauto.
Qed.

(** C7: [doOverlap] is the strict test on both axes, and when some spawned
    toy strictly contains the claw anchor, [getClosestToy] stores as
    [targetToy] an overlapping toy whose [index] is the greatest among all
    overlapping toys; when none does, [targetToy] is left as it was. *)
Theorem getClosestToy_greatest_index (s : state) :
  (forall a b, doOverlap a b = true <->
               rx a < rx b < rx a + rw a /\ ry a < ry b < ry a + rh a) /\
  ((exists t, In t (toyEls s) /\ strictly_inside (objs s t) (claw_rect s)) ->
   exists t0, targetToy (getClosestToy s) = Some t0 /\
              In t0 (toyEls s) /\ strictly_inside (objs s t0) (claw_rect s) /\
              forall u, In u (toyEls s) -> strictly_inside (objs s u) (claw_rect s) ->
                        index (objs s u) <= index (objs s t0)) /\
  ((forall t, In t (toyEls s) -> ~ strictly_inside (objs s t) (claw_rect s)) ->
   targetToy (getClosestToy s) = targetToy s).
Proof.
  split; [exact doOverlap_iff |].
  pose proof (sort_by_index_head s
    (filter (fun t => doOverlap (rect_of (objs s t)) (claw_rect s)) (toyEls s))) as Hh.
  unfold getClosestToy.
  destruct (sort_by_index s _) as [| t0 rest] eqn:E.
  - split.
    + intros [t [Ht Hin]].
      assert (Hf : In t (filter (fun t => doOverlap (rect_of (objs s t)) (claw_rect s))
                               (toyEls s))) by (apply filter_overlap_in; auto).
      rewrite Hh in Hf. destruct Hf.
    + intros _. reflexivity.
  - destruct Hh as [Hin Hmax].
    apply filter_overlap_in in Hin. destruct Hin as [Hin Hov].
    split.
    + intros _. exists t0. split; [reflexivity |]. split; [exact Hin |]. split.
      * unfold upd_obj, set_objs. simpl. exact Hov.
      * intros u Hu Hou. apply Hmax, filter_overlap_in. auto.
    + intros Hnone. exfalso. exact (Hnone t0 Hin Hov).
Qed.

(** ** The movement scheduler *)

Lemma objs_upd_obj (o : obj_id) (f : wobj -> wobj) (s : state) (p : obj_id) :
  objs (upd_obj o f s) p = if obj_id_eq_dec p o then f (objs s p) else objs s p.
Proof. reflexivity. Qed.

Lemma get_set_key (a b : move_key) (v : Z) (o : wobj) :
  get_key a (set_key b v o) = if key_eqb a b then v else get_key a o.
Proof. destruct a, b; reflexivity. Qed.

Lemma key_eqb_true (a b : move_key) : key_eqb a b = true -> a = b.
Proof. destruct a, b; simpl; congruence. Qed.

Lemma frame_obj_refl (o : wobj) : frame_obj o o.
Proof. unfold frame_obj; repeat split. Qed.

Lemma frame_obj_trans (o1 o2 o3 : wobj) :
  frame_obj o1 o2 -> frame_obj o2 o3 -> frame_obj o1 o3.
Proof. unfold frame_obj; intros; intuition congruence. Qed.

Lemma frame_obj_set_key (k : move_key) (v : Z) (o : wobj) : frame_obj (set_key k v o) o.
Proof. destruct k; unfold frame_obj; repeat split. Qed.

Lemma set_objs_set_objs (f g : obj_id -> wobj) (s : state) :
  set_objs f (set_objs g s) = set_objs f s.
Proof. reflexivity. Qed.

Lemma objs_set_objs (f : obj_id -> wobj) (s : state) : objs (set_objs f s) = f.
Proof. reflexivity. Qed.

(** Propagation only writes the heap. *)
Lemma propagate_set_objs (k : move_key) (inc : Z) (l : list (option obj_id)) (s : state) :
  propagate k inc l s = set_objs (objs (propagate k inc l s)) s.
Proof.
  revert s; induction l as [| [p |] l IH]; intro s; simpl.
  - destruct s; reflexivity.
  - change (propagate k inc l (upd_obj p (fun mo => set_key (prop_key k)
              (get_key (prop_key k) mo + inc) mo) s) =
            set_objs (objs (propagate k inc l (upd_obj p (fun mo => set_key (prop_key k)
              (get_key (prop_key k) mo + inc) mo) s))) s).
    rewrite IH at 1. unfold upd_obj. rewrite set_objs_set_objs. reflexivity.
  - apply IH.
Qed.

(** Each passenger's attribute grows by the increment once per occurrence. *)
Lemma propagate_key (k : move_key) (inc : Z) (l : list (option obj_id)) (s : state)
    (p : obj_id) (a : move_key) :
  get_key a (objs (propagate k inc l s) p) =
  get_key a (objs s p) + (if key_eqb a (prop_key k) then inc * count_some p l else 0).
Proof.
  revert s; induction l as [| m l IH]; intro s.
  - unfold count_some; simpl. destruct (key_eqb a (prop_key k)); lia.
  - unfold count_some in *. simpl.
    destruct m as [q |].
    + change (get_key a (objs (propagate k inc l (upd_obj q (fun mo => set_key (prop_key k)
                 (get_key (prop_key k) mo + inc) mo) s)) p) =
              get_key a (objs s p) + (if key_eqb a (prop_key k) then inc * Z.of_nat
                 (if opt_obj_eq_dec (Some q) (Some p) then S (count_occ opt_obj_eq_dec l (Some p))
                  else count_occ opt_obj_eq_dec l (Some p)) else 0)).
      rewrite IH, objs_upd_obj.
      destruct (obj_id_eq_dec p q) as [-> | Hne].
      * rewrite get_set_key.
        destruct (opt_obj_eq_dec (Some q) (Some q)) as [_ | C]; [| congruence].
        destruct (key_eqb a (prop_key k)) eqn:E; [apply key_eqb_true in E; rewrite E |]; rewrite ?Nat2Z.inj_succ; lia.
      * destruct (opt_obj_eq_dec (Some q) (Some p)) as [E | _]; [congruence | reflexivity].
    + destruct (opt_obj_eq_dec None (Some p)) as [E | _]; [discriminate |].
      apply IH.
Qed.

Lemma propagate_frame (k : move_key) (inc : Z) (l : list (option obj_id)) (s : state)
    (p : obj_id) :
  frame_obj (objs (propagate k inc l s) p) (objs s p).
Proof.
  revert s; induction l as [| [q |] l IH]; intro s.
  - apply frame_obj_refl.
  - simpl. eapply frame_obj_trans; [apply IH |].
    simpl. destruct (obj_id_eq_dec p q); [apply frame_obj_set_key | apply frame_obj_refl].
  - apply IH.
Qed.

Lemma should_move_iff (cur T : Z) : should_move cur T = negb (cur =? T).
Proof.
  unfold should_move, step_increment, step_distance.
  destruct (Z.ltb_spec (Z.abs (cur - T)) 10); destruct (Z.gtb_spec cur T);
  destruct (Z.eqb_spec cur T);
  repeat match goal with
         | |- context [?a >? ?b] => destruct (Z.gtb_spec a b)
         | |- context [?a <? ?b] => destruct (Z.ltb_spec a b)
         end; simpl; try reflexivity; lia.
Qed.

Lemma step_increment_up (cur T : Z) : cur <= T -> step_increment cur T = Z.min 10 (T - cur).
Proof.
  intro H. unfold step_increment, step_distance.
  destruct (Z.gtb_spec cur T); [lia |].
  destruct (Z.ltb_spec (Z.abs (cur - T)) 10); lia.
Qed.

(** A tick that moves: the driven attribute and the passengers change. *)
Lemma tick_moving (run : cb -> state -> state) (id : nat) (s : state) (t : timer) :
  find_timer id (timers s) = Some t ->
  get_key (tkey t) (objs s (town t)) <> ttarget t ->
  tick_ run id s =
  propagate (tkey t) (step_increment (get_key (tkey t) (objs s (town t))) (ttarget t))
    (moveWith (objs s (town t)))
    (upd_obj (town t) (set_key (tkey t) (get_key (tkey t) (objs s (town t)) +
        step_increment (get_key (tkey t) (objs s (town t))) (ttarget t))) s).
Proof.
  intros Hf Hne. unfold tick_. rewrite Hf. cbv zeta.
  rewrite should_move_iff. destruct (Z.eqb_spec (get_key (tkey t) (objs s (town t))) (ttarget t));
    [contradiction |]. cbn [negb].
  rewrite (objs_upd_obj (town t)). destruct (obj_id_eq_dec (town t) (town t)); [| congruence].
  destruct (tkey t); reflexivity.
Qed.

(** A tick at the target: the interval is cleared and [next] runs. *)
Lemma tick_completing (run : cb -> state -> state) (id : nat) (s : state) (t : timer) :
  find_timer id (timers s) = Some t ->
  get_key (tkey t) (objs s (town t)) = ttarget t ->
  tick_ run id s = match tnext t with
                   | Some c => run c (clearObjInterval (town t) s)
                   | None => clearObjInterval (town t) s
                   end.
Proof.
  intros Hf He. unfold tick_. rewrite Hf, should_move_iff, He, Z.eqb_refl. reflexivity.
Qed.

Lemma tick_cleared (run : cb -> state -> state) (id : nat) (s : state) :
  find_timer id (timers s) = None -> tick_ run id s = s.
Proof. intro H. unfold tick_. rewrite H. reflexivity. Qed.

Lemma find_timer_filter (id : nat) (l : list timer) :
  find_timer id (filter (fun t => negb (Nat.eqb (tid t) id)) l) = None.
Proof.
  induction l as [| t l IH]; simpl; [reflexivity |].
  destruct (Nat.eqb_spec (tid t) id) as [E | E]; simpl.
  - exact IH.
  - unfold find_timer in *; simpl. destruct (Nat.eqb_spec (tid t) id); [contradiction | exact IH].
Qed.

(** ** Which operations leave positions and attached lists alone *)

Lemma pos_eq_refl (s : state) : pos_eq s s.
Proof. intro p; reflexivity. Qed.
Lemma pos_eq_trans (s1 s2 s3 : state) : pos_eq s1 s2 -> pos_eq s2 s3 -> pos_eq s1 s3.
Proof. intros H1 H2 p; rewrite H1; apply H2. Qed.
Lemma pm_eq_refl (s : state) : pm_eq s s.
Proof. intro p; split; reflexivity. Qed.
Lemma pm_eq_trans (s1 s2 s3 : state) : pm_eq s1 s2 -> pm_eq s2 s3 -> pm_eq s1 s3.
Proof. intros H1 H2 p; destruct (H1 p), (H2 p); split; congruence. Qed.
Lemma pm_pos (s1 s2 : state) : pm_eq s1 s2 -> pos_eq s1 s2.
Proof. intros H p; apply H. Qed.

Lemma pm_same_objs (s1 s2 : state) : objs s1 = objs s2 -> pm_eq s1 s2.
Proof. intros E p; rewrite E; split; reflexivity. Qed.

Lemma pm_upd (q : obj_id) (g : wobj -> wobj) (s : state) :
  (forall o, pos_of (g o) = pos_of o /\ moveWith (g o) = moveWith o) ->
  pm_eq (upd_obj q g s) s.
Proof.
  intros Hg p. rewrite objs_upd_obj. destruct (obj_id_eq_dec p q); [apply Hg | split; reflexivity].
Qed.

Lemma pos_upd (q : obj_id) (g : wobj -> wobj) (s : state) :
  (forall o, pos_of (g o) = pos_of o) -> pos_eq (upd_obj q g s) s.
Proof.
  intros Hg p. rewrite objs_upd_obj. destruct (obj_id_eq_dec p q); [apply Hg | reflexivity].
Qed.

(** Proves [pm_eq (F s) s] / [pos_eq (F s) s] by peeling the outermost
    operation [F] and chaining. *)
Ltac peel lem :=
  first [ eapply pm_eq_trans; [apply lem |]
        | eapply pos_eq_trans; [apply lem |] ].

Lemma pm_clearObjInterval (o : obj_id) (s : state) : pm_eq (clearObjInterval o s) s.
Proof.
  unfold clearObjInterval. destruct (interval (objs s o)); [| apply pm_eq_refl].
  eapply pm_eq_trans; [apply pm_upd; intro; split; reflexivity |].
  apply pm_same_objs; reflexivity.
Qed.

Lemma pm_start_move (o : obj_id) (opts : move_opts) (s : state) : pm_eq (start_move o opts s) s.
Proof.
  unfold start_move, intervals_add.
  eapply pm_eq_trans; [apply pm_same_objs; reflexivity |].
  eapply pm_eq_trans; [apply pm_upd; intro; split; reflexivity |].
  apply pm_same_objs; reflexivity.
Qed.

Lemma pm_moveObject_ (run : cb -> state -> state) (o : obj_id) (opts : move_opts) (s : state) :
  (forall c s', next opts = Some c -> pm_eq (run c s') s') ->
  pm_eq (moveObject_ run o opts s) s.
Proof.
  intro Hrun. unfold moveObject_. destruct (interval (objs s o)).
  - destruct (next opts) eqn:E.
    + eapply pm_eq_trans; [apply Hrun; reflexivity | apply pm_clearObjInterval].
    + apply pm_clearObjInterval.
  - apply pm_start_move.
Qed.

Lemma pos_moveObject_ (run : cb -> state -> state) (o : obj_id) (opts : move_opts) (s : state) :
  (forall c s', pos_eq (run c s') s') -> pos_eq (moveObject_ run o opts s) s.
Proof.
  intro Hrun. unfold moveObject_. destruct (interval (objs s o)).
  - destruct (next opts).
    + eapply pos_eq_trans; [apply Hrun | apply pm_pos, pm_clearObjInterval].
    + apply pm_pos, pm_clearObjInterval.
  - apply pm_pos, pm_start_move.
Qed.

(** [resumeMove] always takes the [else] branch: [run] is never called. *)
Lemma resumeMove_start (run : cb -> state -> state) (o : obj_id) (opts : move_opts) (s : state) :
  resumeMove_ run o opts s = start_move o opts (upd_obj o (set_interval None) s).
Proof.
  unfold resumeMove_, moveObject_. rewrite objs_upd_obj.
  destruct (obj_id_eq_dec o o); [reflexivity | congruence].
Qed.

Lemma pm_resumeMove_ (run : cb -> state -> state) (o : obj_id) (opts : move_opts) (s : state) :
  pm_eq (resumeMove_ run o opts s) s.
Proof.
  rewrite resumeMove_start. eapply pm_eq_trans; [apply pm_start_move |].
  apply pm_upd; intro; split; reflexivity.
Qed.

Lemma pm_activateHoriBtn (s : state) : pm_eq (activateHoriBtn s) s.
Proof.
  unfold activateHoriBtn. destruct (remainingTurns s <=? 0); [apply pm_eq_refl |].
  repeat peel pm_clearObjInterval. apply pm_same_objs; reflexivity.
Qed.

Lemma pm_stopHori (s : state) : pm_eq (stopHoriBtnAndActivateVertBtn s) s.
Proof.
  unfold stopHoriBtnAndActivateVertBtn.
  eapply pm_eq_trans; [apply pm_same_objs; reflexivity |].
  apply pm_upd; intro; split; reflexivity.
Qed.

Lemma pm_setTimeout (c : cb) (d : Z) (s : state) : pm_eq (setTimeout c d s) s.
Proof. apply pm_same_objs; reflexivity. Qed.

Lemma pm_dropEnd (s : state) : pm_eq (dropEnd s) s.
Proof.
  unfold dropEnd.
  assert (H4 : pm_eq (activateHoriBtn (push_trace TurnComplete (set_turns true
             (remainingTurns (upd_obj Arm (fun o => set_classList
                (remove_class "open"%string (classList o)) o) s) - 1)
             (upd_obj Arm (fun o => set_classList (remove_class "open"%string (classList o)) o) s))))
             s).
  { peel pm_activateHoriBtn. eapply pm_eq_trans; [apply pm_same_objs; reflexivity |].
    apply pm_upd; intro; split; reflexivity. }
  destruct (targetToy _); [| exact H4].
  eapply pm_eq_trans; [apply pm_same_objs; reflexivity |].
  eapply pm_eq_trans; [apply pm_upd; intro; split; reflexivity | exact H4].
Qed.

Lemma pm_arrowCheck (s : state) : pm_eq (arrowCheck s) s.
Proof. unfold arrowCheck. destruct (existsb _ _); [apply pm_eq_refl | apply pm_same_objs; reflexivity]. Qed.

Lemma pos_attach_all (v : option obj_id) (s : state) : pos_eq (attach_all v s) s.
Proof.
  unfold attach_all.
  repeat (eapply pos_eq_trans; [apply pos_upd; intro; reflexivity |]). apply pos_eq_refl.
Qed.

Lemma pos_grabToy (s : state) : pos_eq (grabToy s) s.
Proof.
  unfold grabToy. destruct (targetToy s) as [t |].
  - eapply pos_eq_trans; [apply pos_upd; intro; reflexivity |].
    eapply pos_eq_trans.
    { unfold setRotateAngle. apply pos_upd. intro o. destruct (clawPos o) as [[cx cy] |]; reflexivity. }
    apply pos_attach_all.
  - apply pos_upd; intro; reflexivity.
Qed.

Lemma pos_dropToy (run : cb -> state -> state) (s : state) :
  (forall c s', pos_eq (run c s') s') -> pos_eq (dropToy run s) s.
Proof.
  intro Hrun. unfold dropToy.
  eapply pos_eq_trans; [apply pm_pos, pm_setTimeout |].
  destruct (targetToy _) as [t |].
  - eapply pos_eq_trans; [apply pos_attach_all |].
    eapply pos_eq_trans; [apply pos_moveObject_, Hrun |].
    eapply pos_eq_trans; [apply pos_upd; intro; reflexivity |].
    apply pos_upd; intro; reflexivity.
  - apply pos_upd; intro; reflexivity.
Qed.

(** No callback body moves or resizes anything. *)
Lemma pos_cb_body (run : cb -> state -> state) (c : cb) (s : state) :
  (forall c' s', pos_eq (run c' s') s') -> pos_eq (cb_body run c s) s.
Proof.
  intro Hrun. destruct c; simpl.
  - apply pos_eq_refl.
  - apply pm_pos, pm_stopHori.
  - apply pm_pos, pm_resumeMove_.
  - eapply pos_eq_trans; [apply pm_pos, pm_activateHoriBtn |].
    eapply pos_eq_trans; [apply pos_upd; intro; reflexivity |].
    apply pos_upd; intro; reflexivity.
  - eapply pos_eq_trans; [apply pos_moveObject_, Hrun |].
    apply pos_upd; intro; reflexivity.
  - apply pm_pos, pm_setTimeout.
  - eapply pos_eq_trans; [apply pm_pos, pm_resumeMove_ |].
    eapply pos_eq_trans; [apply pos_grabToy |].
    apply pos_upd; intro; reflexivity.
  - apply pm_pos, pm_resumeMove_.
  - apply pm_pos, pm_resumeMove_.
  - apply pos_dropToy, Hrun.
  - apply pm_pos, pm_dropEnd.
  - apply pm_pos, pm_arrowCheck.
Qed.

Lemma pos_invoke (fuel : nat) (c : cb) (s : state) : pos_eq (invoke fuel c s) s.
Proof.
  revert c s; induction fuel as [| f IH]; intros c s; simpl.
  - apply pos_eq_refl.
  - eapply pos_eq_trans; [apply pos_cb_body, IH |]. apply pm_pos, pm_same_objs; reflexivity.
Qed.

Lemma pos_run_cb (c : cb) (s : state) : pos_eq (run_cb c s) s.
Proof. apply pos_invoke. Qed.

(** ** Runs of one interval *)

Lemma objs_start_move (o : obj_id) (opts : move_opts) (s : state) :
  objs (start_move o opts s) = objs (upd_obj o (set_interval (Some (next_handle s))) s).
Proof. reflexivity. Qed.

Lemma timers_start_move (o : obj_id) (opts : move_opts) (s : state) :
  timers (start_move o opts s) =
  Timer (next_handle s) o (moveKey opts)
    (match target opts with Some t => t | None => default_of (moveKey opts) (objs s o) end)
    (period_of (moveTime opts)) (next opts) :: timers s.
Proof. reflexivity. Qed.

Lemma find_timer_head (id : nat) (t : timer) (l : list timer) :
  tid t = id -> find_timer id (t :: l) = Some t.
Proof. intro E. unfold find_timer; simpl. rewrite E, Nat.eqb_refl. reflexivity. Qed.

Lemma run_cb_user (n : nat) (s : state) : run_cb (CbUser n) s = push_trace (Fired (CbUser n)) s.
Proof. reflexivity. Qed.

Lemma count_fired_push (c : cb) (tr : list event) :
  count_fired c (Fired c :: tr) = S (count_fired c tr).
Proof. unfold count_fired. apply count_occ_cons_eq. reflexivity. Qed.

Lemma clearObjInterval_some (o : obj_id) (s : state) (id : nat) :
  interval (objs s o) = Some id ->
  objs (clearObjInterval o s) = objs (upd_obj o (set_interval None) s) /\
  timers (clearObjInterval o s) = filter (fun t => negb (Nat.eqb (tid t) id)) (timers s) /\
  trace (clearObjInterval o s) = trace s /\
  next_handle (clearObjInterval o s) = next_handle s.
Proof. intro H. unfold clearObjInterval. rewrite H. repeat split. Qed.

Lemma count_some_not_in (p : obj_id) (l : list (option obj_id)) :
  ~ In (Some p) l -> count_some p l = 0.
Proof. intro H. unfold count_some. rewrite (proj1 (count_occ_not_In _ _ _) H). reflexivity. Qed.

Lemma tick_driving_up (run : cb -> state -> state) (id : nat) (o : obj_id) (k : move_key)
    (T : Z) (nx : option cb) (s : state) :
  driving id o k T nx s -> get_key k (objs s o) < T ->
  driving id o k T nx (tick_ run id s) /\
  get_key k (objs (tick_ run id s) o) = get_key k (objs s o) + Z.min 10 (T - get_key k (objs s o)) /\
  trace (tick_ run id s) = trace s /\ next_handle (tick_ run id s) = next_handle s.
Proof.
  intros [[p Hf] [Hi Hn]] Hlt.
  rewrite (tick_moving run id s _ Hf) by (simpl; lia). simpl.
  rewrite step_increment_up by lia.
  set (s1 := upd_obj o (set_key k (get_key k (objs s o) + Z.min 10 (T - get_key k (objs s o)))) s).
  set (l := moveWith (objs s o)).
  assert (Ho : frame_obj (objs (propagate k (Z.min 10 (T - get_key k (objs s o))) l s1) o)
                         (objs s o)).
  { eapply frame_obj_trans; [apply propagate_frame |].
    unfold s1. rewrite objs_upd_obj. destruct (obj_id_eq_dec o o); [| congruence].
    apply frame_obj_set_key. }
  destruct Ho as (_ & _ & _ & _ & Hint & _ & Hmw & _).
  set (s' := propagate k (Z.min 10 (T - get_key k (objs s o))) l s1) in *.
  assert (Es : s' = set_objs (objs s') s) by (unfold s'; rewrite propagate_set_objs; reflexivity).
  split; [| split; [| split; rewrite Es; reflexivity]].
  - split; [exists p; rewrite Es; exact Hf |]. split; [rewrite Hint; exact Hi |].
    rewrite Hmw. exact Hn.
  - unfold s'. rewrite propagate_key, count_some_not_in by exact Hn.
    unfold s1. rewrite objs_upd_obj. destruct (obj_id_eq_dec o o); [| congruence].
    rewrite get_set_key. destruct k; simpl; lia.
Qed.

Lemma ticks_driving_up (run : cb -> state -> state) (id : nat) (o : obj_id) (k : move_key)
    (T : Z) (nx : option cb) (j : nat) (s : state) :
  driving id o k T nx s -> get_key k (objs s o) + 10 * Z.of_nat j <= T ->
  driving id o k T nx (Nat.iter j (tick_ run id) s) /\
  get_key k (objs (Nat.iter j (tick_ run id) s) o) = get_key k (objs s o) + 10 * Z.of_nat j /\
  trace (Nat.iter j (tick_ run id) s) = trace s /\
  next_handle (Nat.iter j (tick_ run id) s) = next_handle s.
Proof.
  revert s; induction j as [| j IH]; intros s Hd Hle.
  - simpl. repeat split; try apply Hd; lia.
  - rewrite Nat.iter_succ_r.
    destruct (tick_driving_up run id o k T nx s Hd ltac:(lia)) as (Hd' & Hv & Ht & Hh).
    destruct (IH (tick_ run id s) Hd' ltac:(rewrite Hv; lia)) as (Hd'' & Hv' & Ht' & Hh').
    repeat split; try apply Hd''; [rewrite Hv', Hv; lia | congruence | congruence].
Qed.

Lemma tick_driving_done (run : cb -> state -> state) (id : nat) (o : obj_id) (k : move_key)
    (T : Z) (c : cb) (s : state) :
  driving id o k T (Some c) s -> get_key k (objs s o) = T ->
  tick_ run id s = run c (clearObjInterval o s) /\
  find_timer id (timers (clearObjInterval o s)) = None /\
  objs (clearObjInterval o s) = objs (upd_obj o (set_interval None) s) /\
  trace (clearObjInterval o s) = trace s.
Proof.
  intros [[p Hf] [Hi Hn]] He.
  destruct (clearObjInterval_some o s id Hi) as (Ho & Ht & Htr & _).
  split; [rewrite (tick_completing run id s _ Hf) by exact He; reflexivity |].
  split; [rewrite Ht; apply find_timer_filter |]. split; assumption.
Qed.

Lemma iter_fixed {A} (f : A -> A) (a b : A) (m : nat) :
  f a = b -> f b = b -> (1 <= m)%nat -> Nat.iter m f a = b.
Proof.
  intros H1 H2 Hm. induction m as [| m IH]; [lia |].
  destruct m as [| m]; simpl in *; [exact H1 |]. rewrite IH by lia. exact H2.
Qed.

(** C5: [moveObject] on an object whose interval is live clears that
    interval (it can never fire again, so the in-flight [next] never runs),
    changes no position and writes nothing to the trace; it then runs the
    [next] of the new call if one was given, and otherwise stops there. *)
Theorem moveObject_cancel_branch (o : obj_id) (opts : move_opts) (s : state) (id : nat)
    (Hi : interval (objs s o) = Some id) :
  moveObject o opts s =
    match next opts with
    | Some c => run_cb c (clearObjInterval o s)
    | None => clearObjInterval o s
    end /\
  find_timer id (timers (clearObjInterval o s)) = None /\
  tick id (clearObjInterval o s) = clearObjInterval o s /\
  interval (objs (clearObjInterval o s) o) = None /\
  trace (clearObjInterval o s) = trace s /\
  (forall p, pos_of (objs (moveObject o opts s) p) = pos_of (objs s p)) /\
  (forall n, next opts = Some (CbUser n) ->
     trace (moveObject o opts s) = Fired (CbUser n) :: trace s).
Proof.
  destruct (clearObjInterval_some o s id Hi) as (Ho & Ht & Htr & _).
  assert (Hm : moveObject o opts s =
               match next opts with
               | Some c => run_cb c (clearObjInterval o s)
               | None => clearObjInterval o s
               end) by (unfold moveObject, moveObject_; rewrite Hi; reflexivity).
  assert (Hf : find_timer id (timers (clearObjInterval o s)) = None)
    by (rewrite Ht; apply find_timer_filter).
  split; [exact Hm |]. split; [exact Hf |]. split; [apply tick_cleared, Hf |].
  split.
  { rewrite Ho, objs_upd_obj. destruct (obj_id_eq_dec o o); [reflexivity | congruence]. }
  split; [exact Htr |]. split.
  - intro p. rewrite Hm. destruct (next opts).
    + rewrite (pos_run_cb _ _ p). apply (pm_clearObjInterval o s p).
    + apply (pm_clearObjInterval o s p).
  - intros n En. rewrite Hm, En, run_cb_user. simpl. rewrite Htr. reflexivity.
Qed.

(** C8: a move to the value the attribute already has, on an object with
    no live interval, runs its [next] exactly once: on the first firing of
    its interval, which clears the interval, so any number [m >= 1] of
    firings gives one run; no position of any object changes. *)
Theorem zero_distance_move_fires_once (o : obj_id) (k : move_key) (mt : option Z) (n : nat)
    (s : state) (m : nat) (Hnone : interval (objs s o) = None) (Hm : (1 <= m)%nat) :
  let s1 := moveObject o (MoveOpts k (Some (get_key k (objs s o))) mt (Some (CbUser n))) s in
  let sm := Nat.iter m (tick (next_handle s)) s1 in
  count_fired (CbUser n) (trace sm) = S (count_fired (CbUser n) (trace s)) /\
  (forall p, pos_of (objs sm p) = pos_of (objs s p)) /\
  interval (objs sm o) = None /\
  find_timer (next_handle s) (timers sm) = None.
Proof.
  cbv zeta.
  set (opts := MoveOpts k (Some (get_key k (objs s o))) mt (Some (CbUser n))).
  assert (E1 : moveObject o opts s = start_move o opts s)
    by (unfold moveObject, moveObject_; rewrite Hnone; reflexivity).
  rewrite E1.
  set (s1 := start_move o opts s). set (id := next_handle s).
  assert (Hf1 : find_timer id (timers s1) =
                Some (Timer id o k (get_key k (objs s o)) (period_of mt) (Some (CbUser n))))
    by (unfold s1; rewrite timers_start_move; apply find_timer_head; reflexivity).
  assert (Hi1 : interval (objs s1 o) = Some id).
  { unfold s1. rewrite objs_start_move, objs_upd_obj.
    destruct (obj_id_eq_dec o o); [reflexivity | congruence]. }
  assert (Hv1 : get_key k (objs s1 o) = get_key k (objs s o)).
  { unfold s1. rewrite objs_start_move, objs_upd_obj.
    destruct (obj_id_eq_dec o o); [destruct k; reflexivity | congruence]. }
  destruct (clearObjInterval_some o s1 id Hi1) as (Ho & Ht & Htr & _).
  set (s2 := push_trace (Fired (CbUser n)) (clearObjInterval o s1)).
  assert (Ht1 : tick id s1 = s2).
  { unfold tick. rewrite (tick_completing _ _ _ _ Hf1) by exact Hv1. reflexivity. }
  assert (Hf2 : find_timer id (timers s2) = None)
    by (unfold s2; simpl; rewrite Ht; apply find_timer_filter).
  rewrite (iter_fixed (tick id) s1 s2 m Ht1 (tick_cleared _ _ _ Hf2) Hm).
  split; [| split; [| split]].
  - unfold s2. simpl. rewrite count_fired_push, Htr. reflexivity.
  - intro p. change (objs s2) with (objs (clearObjInterval o s1)).
    rewrite (proj1 (pm_clearObjInterval o s1 p)). apply (proj1 (pm_start_move o opts s p)).
  - change (objs s2) with (objs (clearObjInterval o s1)). rewrite Ho, objs_upd_obj.
    destruct (obj_id_eq_dec o o); [reflexivity | congruence].
  - exact Hf2.
Qed.


Lemma iter_stable {A} (f : A -> A) (b : A) (m : nat) : f b = b -> Nat.iter m f b = b.
Proof. intro H. induction m as [| m IH]; simpl; [reflexivity | rewrite IH; exact H]. Qed.

Lemma objs_push_trace (e : event) (s : state) : objs (push_trace e s) = objs s.
Proof. reflexivity. Qed.

Lemma timers_push_trace (e : event) (s : state) : timers (push_trace e s) = timers s.
Proof. reflexivity. Qed.

Lemma trace_push_trace (e : event) (s : state) : trace (push_trace e s) = e :: trace s.
Proof. reflexivity. Qed.

Lemma driving_start (o : obj_id) (k : move_key) (T : Z) (mt : option Z) (c : cb) (s : state) :
  ~ In (Some o) (moveWith (objs s o)) ->
  driving (next_handle s) o k T (Some c) (start_move o (MoveOpts k (Some T) mt (Some c)) s) /\
  get_key k (objs (start_move o (MoveOpts k (Some T) mt (Some c)) s) o) = get_key k (objs s o) /\
  trace (start_move o (MoveOpts k (Some T) mt (Some c)) s) = trace s /\
  next_handle (start_move o (MoveOpts k (Some T) mt (Some c)) s) = S (next_handle s).
Proof.
  intro Hn. unfold driving. rewrite !objs_start_move, !objs_upd_obj.
  destruct (obj_id_eq_dec o o) as [_ | C]; [| congruence].
  split; [| split; [destruct k; reflexivity | split; reflexivity]].
  split; [| split; [reflexivity | exact Hn]].
  exists (period_of mt). rewrite timers_start_move. apply find_timer_head. reflexivity.
Qed.

Lemma interval_cleared_self (o : obj_id) (s : state) :
  objs (upd_obj o (set_interval None) s) o = set_interval None (objs s o).
Proof. rewrite objs_upd_obj. destruct (obj_id_eq_dec o o); [reflexivity | congruence]. Qed.

Lemma x_set_interval (v : option nat) (w : wobj) : x (set_interval v w) = x w.
Proof. reflexivity. Qed.

Lemma get_key_KX (w : wobj) : get_key KX w = x w.
Proof. reflexivity. Qed.

(** C6: a move of [x] from 0 toward 100, stopped after three firings
    (at 30) by clearing its interval and resumed toward 100 with
    [resumeMove], ends at exactly 100 after its completing firing and has
    run its callback once, which is what the uninterrupted move does; once
    finished, further firings change nothing.  (The object is not in its
    own attached list, as none of the component's objects is.) *)
Theorem cancel_resume_matches_uninterrupted (o : obj_id) (n : nat) (s : state)
    (Hnone : interval (objs s o) = None) (Hx : x (objs s o) = 0)
    (Hself : ~ In (Some o) (moveWith (objs s o))) :
  let opts := MoveOpts KX (Some 100) None (Some (CbUser n)) in
  let started := moveObject o opts s in
  let after3 := Nat.iter 3 (tick (next_handle s)) started in
  let cancelled := clearObjInterval o after3 in
  let resumed := resumeMove o opts cancelled in
  let finished := Nat.iter 8 (tick (next_handle cancelled)) resumed in
  let plain := Nat.iter 11 (tick (next_handle s)) started in
  x (objs after3 o) = 30 /\
  x (objs finished o) = 100 /\
  count_fired (CbUser n) (trace finished) = S (count_fired (CbUser n) (trace s)) /\
  x (objs plain o) = 100 /\
  count_fired (CbUser n) (trace plain) = S (count_fired (CbUser n) (trace s)) /\
  (forall m, Nat.iter m (tick (next_handle cancelled)) finished = finished).
Proof.
  intros opts started after3 cancelled resumed finished plain.
  assert (Ef8 : finished = tick (next_handle cancelled)
                  (Nat.iter 7 (tick (next_handle cancelled)) resumed))
    by (unfold finished; apply Nat.iter_succ).
  assert (Ep11 : plain = tick (next_handle s) (Nat.iter 10 (tick (next_handle s)) started))
    by (unfold plain; apply Nat.iter_succ).
  clearbody finished plain.
  set (c := CbUser n) in *.
  assert (E1 : started = start_move o opts s)
    by (unfold started, moveObject, moveObject_; rewrite Hnone; reflexivity).
  set (id1 := next_handle s) in *.
  destruct (driving_start o KX 100 None c s Hself) as (Hd0 & Hv0 & Htr0 & _).
  fold opts in Hd0, Hv0, Htr0. rewrite <- E1 in Hd0, Hv0, Htr0.
  assert (Hv0' : get_key KX (objs started o) = 0) by (rewrite Hv0; exact Hx).
  (* three firings *)
  destruct (ticks_driving_up run_cb id1 o KX 100 (Some c) 3 started Hd0
              ltac:(rewrite Hv0'; cbn; lia)) as (Hd3 & Hv3 & Htr3 & _).
  fold tick after3 in Hd3, Hv3, Htr3.
  assert (Hv3' : get_key KX (objs after3 o) = 30) by (rewrite Hv3, Hv0'; reflexivity).
  (* cancellation *)
  destruct Hd3 as (_ & Hi3 & Hn3).
  destruct (clearObjInterval_some o after3 id1 Hi3) as (Hoc & _ & Htrc & _).
  fold cancelled in Hoc, Htrc.
  assert (Hcself : objs cancelled o = set_interval None (objs after3 o))
    by (rewrite Hoc; apply interval_cleared_self).
  (* resumption *)
  set (cleared := upd_obj o (set_interval None) cancelled).
  assert (E2 : resumed = start_move o opts cleared)
    by (unfold resumed, resumeMove; apply resumeMove_start).
  assert (Hclself : objs cleared o = set_interval None (objs cancelled o))
    by apply interval_cleared_self.
  assert (Hncl : ~ In (Some o) (moveWith (objs cleared o)))
    by (rewrite Hclself, Hcself; exact Hn3).
  destruct (driving_start o KX 100 None c cleared Hncl) as (Hd4 & Hv4 & Htr4 & _).
  fold opts in Hd4, Hv4, Htr4. rewrite <- E2 in Hd4, Hv4, Htr4.
  change (next_handle cleared) with (next_handle cancelled) in Hd4.
  assert (Hv4' : get_key KX (objs resumed o) = 30)
    by (rewrite Hv4, Hclself, Hcself; exact Hv3').
  destruct (ticks_driving_up run_cb (next_handle cancelled) o KX 100 (Some c) 7 resumed Hd4
              ltac:(rewrite Hv4'; cbn; lia)) as (Hd5 & Hv5 & Htr5 & _).
  fold tick in Hd5, Hv5, Htr5.
  destruct (tick_driving_done run_cb (next_handle cancelled) o KX 100 c _ Hd5
              ltac:(rewrite Hv5, Hv4'; reflexivity)) as (Hdone & Hfd & Hod & Htrd).
  assert (Ef : finished = push_trace (Fired c)
                 (clearObjInterval o (Nat.iter 7 (tick (next_handle cancelled)) resumed)))
    by (rewrite Ef8; exact (eq_trans Hdone (run_cb_user n _))).
  (* the uninterrupted run *)
  destruct (ticks_driving_up run_cb id1 o KX 100 (Some c) 10 started Hd0
              ltac:(rewrite Hv0'; cbn; lia)) as (Hd10 & Hv10 & Htr10 & _).
  fold tick in Hd10, Hv10, Htr10.
  destruct (tick_driving_done run_cb id1 o KX 100 c _ Hd10
              ltac:(rewrite Hv10, Hv0'; reflexivity)) as (Hdone' & _ & Hod' & Htrd').
  assert (Ep : plain = push_trace (Fired c) (clearObjInterval o (Nat.iter 10 (tick id1) started)))
    by (rewrite Ep11; exact (eq_trans Hdone' (run_cb_user n _))).
  split; [| split; [| split; [| split; [| split]]]].
  - exact Hv3'.
  - rewrite Ef, objs_push_trace, Hod, interval_cleared_self, x_set_interval, <- get_key_KX.
    rewrite Hv5, Hv4'. lia.
  - rewrite Ef, trace_push_trace, count_fired_push, Htrd, Htr5, Htr4.
    change (trace cleared) with (trace cancelled). rewrite Htrc, Htr3, Htr0. reflexivity.
  - rewrite Ep, objs_push_trace, Hod', interval_cleared_self, x_set_interval, <- get_key_KX.
    rewrite Hv10, Hv0'. lia.
  - rewrite Ep, trace_push_trace, count_fired_push, Htrd', Htr10, Htr0. reflexivity.
  - intro m. apply iter_stable. unfold tick. apply (tick_cleared run_cb).
    rewrite Ef, timers_push_trace. exact Hfd.
Qed.

Lemma moveObject_cancel_branch_witness :
  interval (objs Session.joint_moving ArmJoint) = Some 4%nat /\
  trace (moveObject ArmJoint (MoveOpts KY (Some 16) None (Some (CbUser 0))) Session.joint_moving) =
    Fired (CbUser 0) :: trace Session.joint_moving.
Proof.
  assert (Hi : interval (objs Session.joint_moving ArmJoint) = Some 4%nat)
    by (vm_compute; reflexivity).
  split; [exact Hi |].
  destruct (moveObject_cancel_branch ArmJoint (MoveOpts KY (Some 16) None (Some (CbUser 0)))
              Session.joint_moving 4 Hi) as (_ & _ & _ & _ & _ & _ & Hu).
  apply Hu. reflexivity.
Defined.

Lemma cancel_resume_matches_uninterrupted_witness :
  interval (objs Session.mounted (ToyObj 0)) = None /\
  x (objs Session.mounted (ToyObj 0)) = 0 /\
  ~ In (Some (ToyObj 0)) (moveWith (objs Session.mounted (ToyObj 0))) /\
  let opts := MoveOpts KX (Some 100) None (Some (CbUser 0)) in
  let started := moveObject (ToyObj 0) opts Session.mounted in
  let after3 := Nat.iter 3 (tick (next_handle Session.mounted)) started in
  let cancelled := clearObjInterval (ToyObj 0) after3 in
  let resumed := resumeMove (ToyObj 0) opts cancelled in
  let finished := Nat.iter 8 (tick (next_handle cancelled)) resumed in
  x (objs finished (ToyObj 0)) = 100 /\
  count_fired (CbUser 0) (trace finished) = S (count_fired (CbUser 0) (trace Session.mounted)).
Proof.
  assert (H1 : interval (objs Session.mounted (ToyObj 0)) = None) by (vm_compute; reflexivity).
  assert (H2 : x (objs Session.mounted (ToyObj 0)) = 0) by (vm_compute; reflexivity).
  assert (H3 : ~ In (Some (ToyObj 0)) (moveWith (objs Session.mounted (ToyObj 0))))
    by (vm_compute; intros []).
  split; [exact H1 | split; [exact H2 | split; [exact H3 |]]].
  destruct (cancel_resume_matches_uninterrupted (ToyObj 0) 0 Session.mounted H1 H2 H3)
    as (_ & Hx & Hc & _).
  split; [exact Hx | exact Hc].
Defined.

Lemma zero_distance_move_fires_once_witness :
  interval (objs Session.mounted (ToyObj 0)) = None /\ (1 <= 2)%nat /\
  count_fired (CbUser 0)
    (trace (Nat.iter 2 (tick (next_handle Session.mounted))
       (moveObject (ToyObj 0)
          (MoveOpts KX (Some (get_key KX (objs Session.mounted (ToyObj 0)))) None (Some (CbUser 0)))
          Session.mounted))) =
  S (count_fired (CbUser 0) (trace Session.mounted)).
Proof.
  assert (H1 : interval (objs Session.mounted (ToyObj 0)) = None) by (vm_compute; reflexivity).
  split; [exact H1 | split; [lia |]].
  destruct (zero_distance_move_fires_once (ToyObj 0) KX None 0 Session.mounted 2 H1
              ltac:(lia)) as (Hc & _).
  exact Hc.
Defined.

(** A firing that moves: every coordinate of every object changes by the
    step on the driver's own attribute plus the step times the number of
    times the object is listed in the driver's attached list (on the
    propagated attribute); nothing else changes. *)
Lemma tick_moving_keys (id : nat) (s : state) (t : timer) :
  find_timer id (timers s) = Some t ->
  get_key (tkey t) (objs s (town t)) <> ttarget t ->
  let inc := step_increment (get_key (tkey t) (objs s (town t))) (ttarget t) in
  (forall p a, get_key a (objs (tick id s) p) =
     get_key a (objs s p)
     + (if obj_id_eq_dec p (town t) then if key_eqb a (tkey t) then inc else 0 else 0)
     + (if key_eqb a (prop_key (tkey t)) then inc * count_some p (moveWith (objs s (town t)))
        else 0)) /\
  (forall p, frame_obj (objs (tick id s) p) (objs s p)) /\
  set_objs (objs s) (tick id s) = s.
Proof.
  intros Hf Hne inc. unfold tick. rewrite (tick_moving run_cb id s t Hf Hne). fold inc.
  set (o := town t) in *. set (k := tkey t) in *.
  set (s1 := upd_obj o (set_key k (get_key k (objs s o) + inc)) s).
  assert (Hl : moveWith (objs s1 o) = moveWith (objs s o)).
  { unfold s1. rewrite objs_upd_obj. destruct (obj_id_eq_dec o o); [| congruence].
    destruct k; reflexivity. }
  split; [| split].
  - intros p a. rewrite propagate_key. unfold s1. rewrite objs_upd_obj.
    destruct (obj_id_eq_dec p o) as [-> | Hpo].
    + rewrite get_set_key. destruct (key_eqb a k) eqn:E.
      * apply key_eqb_true in E. subst a. lia.
      * destruct a, k; simpl in E |- *; try discriminate; lia.
    + lia.
  - intro p. eapply frame_obj_trans; [apply propagate_frame |].
    unfold s1. rewrite objs_upd_obj. destruct (obj_id_eq_dec p o).
    + subst p. apply frame_obj_set_key.
    + apply frame_obj_refl.
  - rewrite propagate_set_objs. unfold s1, upd_obj.
    rewrite !set_objs_set_objs. destruct s; reflexivity.
Qed.

(** A firing that completes moves no object. *)
Lemma tick_completing_pos (id : nat) (s : state) (t : timer) :
  find_timer id (timers s) = Some t ->
  get_key (tkey t) (objs s (town t)) = ttarget t ->
  pos_eq (tick id s) s.
Proof.
  intros Hf He. unfold tick. rewrite (tick_completing run_cb id s t Hf He).
  destruct (tnext t) as [c |].
  - eapply pos_eq_trans; [apply pos_run_cb |]. apply pm_pos, pm_clearObjInterval.
  - apply pm_pos, pm_clearObjInterval.
Qed.

(** One firing of an interval that drives [h] of [o], with [m] listed once
    in [o]'s attached list: [m]'s [y] moves by exactly what [o]'s [h] moves. *)
Lemma tick_h_follow (id : nat) (s : state) (o m : obj_id) :
  m <> o ->
  match find_timer id (timers s) with
  | None => True | Some t => town t = o /\ tkey t = KH end ->
  count_some m (moveWith (objs s o)) = 1 ->
  y (objs (tick id s) m) - y (objs s m) = h (objs (tick id s) o) - h (objs s o).
Proof.
  intros Hmo Hd Hone. destruct (find_timer id (timers s)) as [t |] eqn:Hf.
  - destruct Hd as [Ho Hk].
    destruct (Z.eq_dec (get_key (tkey t) (objs s (town t))) (ttarget t)) as [He | Hne].
    + pose proof (tick_completing_pos id s t Hf He) as Hp.
      pose proof (Hp m) as Hm. pose proof (Hp o) as Ho'.
      unfold pos_of in Hm, Ho'. injection Hm. injection Ho'. intros. lia.
    + destruct (tick_moving_keys id s t Hf Hne) as (Hk' & _ & _).
      pose proof (Hk' m KY) as Hy. pose proof (Hk' o KH) as Hh.
      rewrite Ho, Hk in Hy, Hh. simpl in Hy, Hh.
      destruct (obj_id_eq_dec m o) as [| _]; [congruence |].
      destruct (obj_id_eq_dec o o) as [_ | C]; [| congruence].
      rewrite Hone in Hy.
      rewrite Hy, Hh. lia.
  - unfold tick, tick_. rewrite Hf. lia.
Qed.

(** C9: while the interval [id] drives the [h] of [o] (or is gone) and [m]
    sits once in [o]'s attached list, over any number of firings [m]'s [y]
    changes by exactly as much as [o]'s [h] does; per firing, the signed step
    applied to [h] is applied to [y]. *)
Theorem attached_toy_follows_extension (id : nat) (o m : obj_id) (n : nat) (s : state)
    (Hmo : m <> o)
    (Hrun : forall j, (j < n)%nat ->
       match find_timer id (timers (Nat.iter j (tick id) s)) with
       | None => True | Some t => town t = o /\ tkey t = KH end /\
       count_some m (moveWith (objs (Nat.iter j (tick id) s) o)) = 1) :
  y (objs (Nat.iter n (tick id) s) m) - y (objs s m) =
  h (objs (Nat.iter n (tick id) s) o) - h (objs s o).
Proof.
  induction n as [| n IH].
  - simpl. lia.
  - rewrite Nat.iter_succ.
    destruct (Hrun n ltac:(lia)) as [Hd Hone].
    pose proof (tick_h_follow id (Nat.iter n (tick id) s) o m Hmo Hd Hone) as Ht.
    assert (IH' := IH ltac:(intros j Hj; apply Hrun; lia)). lia.
Qed.

(** C10: a firing of interval [id] whose timer [t] moves [town t] changes
    [town t]'s attribute [tkey t] by the step and, for each object [p], the
    propagated attribute ([y] for [h], otherwise the same one) by the step
    times the number of times [p] is listed in [town t]'s own attached list;
    it changes nothing else: no other coordinate, and no other attribute of
    any object ([frame_obj]: depth [z], width, angle, transform origin,
    interval handle, default pose, attached list, type, index, claw position
    and classes), no other field of the state.  A completing firing moves
    nothing. *)
Theorem tick_frame (id : nat) (s : state) (t : timer)
    (Hf : find_timer id (timers s) = Some t) :
  (get_key (tkey t) (objs s (town t)) <> ttarget t ->
   let inc := step_increment (get_key (tkey t) (objs s (town t))) (ttarget t) in
   (forall p a, get_key a (objs (tick id s) p) =
      get_key a (objs s p)
      + (if obj_id_eq_dec p (town t) then if key_eqb a (tkey t) then inc else 0 else 0)
      + (if key_eqb a (prop_key (tkey t)) then inc * count_some p (moveWith (objs s (town t)))
         else 0)) /\
   (forall p, frame_obj (objs (tick id s) p) (objs s p)) /\
   set_objs (objs s) (tick id s) = s) /\
  (get_key (tkey t) (objs s (town t)) = ttarget t ->
   forall p, pos_of (objs (tick id s) p) = pos_of (objs s p)).
Proof.
  split.
  - intro Hne. exact (tick_moving_keys id s t Hf Hne).
  - intros He p. exact (tick_completing_pos id s t Hf He p).
Qed.

Lemma attached_toy_follows_extension_witness :
  ToyObj 0 <> Arm /\
  y (objs (Nat.iter 3 (tick 8) Session.grabbed) (ToyObj 0)) - y (objs Session.grabbed (ToyObj 0)) =
  h (objs (Nat.iter 3 (tick 8) Session.grabbed) Arm) - h (objs Session.grabbed Arm).
Proof.
  split; [discriminate |].
  apply (attached_toy_follows_extension 8 Arm (ToyObj 0) 3 Session.grabbed).
  - discriminate.
  - intros j Hj. destruct j as [| [| [| j]]]; [vm_compute; repeat split .. | lia].
Defined.

Lemma tick_frame_witness :
  find_timer 8 (timers Session.grabbed) = Some (Timer 8 Arm KH 60 100 (Some CbArmRetracted)) /\
  get_key KY (objs (tick 8 Session.grabbed) (ToyObj 0)) =
    get_key KY (objs Session.grabbed (ToyObj 0)) - 10.
Proof.
  assert (Hf : find_timer 8 (timers Session.grabbed) =
               Some (Timer 8 Arm KH 60 100 (Some CbArmRetracted))) by (vm_compute; reflexivity).
  split; [exact Hf |].
  destruct (tick_frame 8 Session.grabbed _ Hf) as [Hmov _].
  destruct (Hmov ltac:(vm_compute; discriminate)) as [Hk _].
  rewrite Hk. vm_compute. reflexivity.
Defined.

(** ** The attached lists along a session *)

Lemma keeps_refl (s : state) : keeps s s.
Proof. repeat split. Qed.

Lemma keeps_trans (s1 s2 s3 : state) : keeps s1 s2 -> keeps s2 s3 -> keeps s1 s3.
Proof.
  intros (H1 & H2 & H3) (H4 & H5 & H6). split; [intro p; rewrite H1; apply H4 | split; congruence].
Qed.

Lemma keeps_inv (s1 s2 : state) : keeps s1 s2 -> claw_inv s2 -> claw_inv s1.
Proof.
  intros (Hm & He & Ht) ((Hv & Hj & Ha & Hy) & Hel & Htg).
  unfold claw_inv, attach_shape. rewrite !Hm, He, Ht.
  split; [split; [exact Hv | split; [exact Hj | split; [exact Ha | intro i; rewrite Hm; apply Hy]]] |].
  split; assumption.
Qed.

Lemma keeps_same_objs (s1 s2 : state) :
  objs s1 = objs s2 -> toyEls s1 = toyEls s2 -> targetToy s1 = targetToy s2 -> keeps s1 s2.
Proof. intros E1 E2 E3. split; [intro p; rewrite E1; reflexivity | split; assumption]. Qed.

Lemma keeps_upd (q : obj_id) (g : wobj -> wobj) (s : state) :
  (forall o, moveWith (g o) = moveWith o) -> keeps (upd_obj q g s) s.
Proof.
  intro Hg. split; [| split; reflexivity].
  intro p. rewrite objs_upd_obj. destruct (obj_id_eq_dec p q); [apply Hg | reflexivity].
Qed.

Lemma keeps_set_handles ivs ts tos nh (s : state) : keeps (set_handles ivs ts tos nh s) s.
Proof. apply keeps_same_objs; reflexivity. Qed.
Lemma keeps_set_ui hb vb ar (s : state) : keeps (set_ui hb vb ar s) s.
Proof. apply keeps_same_objs; reflexivity. Qed.
Lemma keeps_set_turns used rem (s : state) : keeps (set_turns used rem s) s.
Proof. apply keeps_same_objs; reflexivity. Qed.
Lemma keeps_set_collected v (s : state) : keeps (set_collected v s) s.
Proof. apply keeps_same_objs; reflexivity. Qed.
Lemma keeps_set_catalog ts st (s : state) : keeps (set_catalog ts st s) s.
Proof. apply keeps_same_objs; reflexivity. Qed.
Lemma keeps_push_trace e (s : state) : keeps (push_trace e s) s.
Proof. apply keeps_same_objs; reflexivity. Qed.

(** Peels the outermost operation off a [keeps] goal. *)
Ltac keep_step :=
  eapply keeps_trans;
  [ first [ apply keeps_upd; intro; reflexivity | apply keeps_set_handles | apply keeps_set_ui
          | apply keeps_set_turns | apply keeps_set_collected | apply keeps_set_catalog
          | apply keeps_push_trace ] |].

Lemma keeps_clearObjInterval (o : obj_id) (s : state) : keeps (clearObjInterval o s) s.
Proof.
  unfold clearObjInterval. destruct (interval (objs s o)); [| apply keeps_refl].
  repeat keep_step. apply keeps_refl.
Qed.

Lemma keeps_start_move (o : obj_id) (opts : move_opts) (s : state) : keeps (start_move o opts s) s.
Proof. unfold start_move, intervals_add. repeat keep_step. apply keeps_refl. Qed.

Lemma keeps_resumeMove_ (run : cb -> state -> state) (o : obj_id) (opts : move_opts) (s : state) :
  keeps (resumeMove_ run o opts s) s.
Proof. rewrite resumeMove_start. eapply keeps_trans; [apply keeps_start_move |]. repeat keep_step. apply keeps_refl. Qed.

Lemma keeps_activateHoriBtn (s : state) : keeps (activateHoriBtn s) s.
Proof.
  unfold activateHoriBtn. destruct (remainingTurns s <=? 0); [apply keeps_refl |].
  repeat (eapply keeps_trans; [apply keeps_clearObjInterval |]). repeat keep_step. apply keeps_refl.
Qed.

Lemma keeps_stopHori (s : state) : keeps (stopHoriBtnAndActivateVertBtn s) s.
Proof. unfold stopHoriBtnAndActivateVertBtn. repeat keep_step. apply keeps_refl. Qed.

Lemma keeps_setTimeout (c : cb) (d : Z) (s : state) : keeps (setTimeout c d s) s.
Proof. apply keeps_set_handles. Qed.

Lemma keeps_arrowCheck (s : state) : keeps (arrowCheck s) s.
Proof. unfold arrowCheck. destruct (existsb _ _); [apply keeps_refl | apply keeps_same_objs; reflexivity]. Qed.

Lemma keeps_collectToy (t : obj_id) (s : state) : keeps (collectToy t s) s.
Proof. unfold collectToy. eapply keeps_trans; [apply keeps_setTimeout |]. repeat keep_step. apply keeps_refl. Qed.

Lemma keeps_propagate (k : move_key) (inc : Z) (l : list (option obj_id)) (s : state) :
  keeps (propagate k inc l s) s.
Proof.
  split; [intro p; apply (propagate_frame k inc l s p) |].
  rewrite propagate_set_objs. split; reflexivity.
Qed.

Lemma inv_moveObject_ (run : cb -> state -> state) (o : obj_id) (opts : move_opts) (s : state) :
  (forall c s', next opts = Some c -> claw_inv s' -> claw_inv (run c s')) ->
  claw_inv s -> claw_inv (moveObject_ run o opts s).
Proof.
  intros Hrun Hs. unfold moveObject_. destruct (interval (objs s o)).
  - assert (H1 : claw_inv (clearObjInterval o s)) by (eapply keeps_inv; [apply keeps_clearObjInterval | exact Hs]).
    destruct (next opts) as [c |] eqn:E; [apply (Hrun c); [first [reflexivity | assumption] | exact H1] | exact H1].
  - eapply keeps_inv; [apply keeps_start_move | exact Hs].
Qed.

Lemma set_first_shape (v : option obj_id) (l : list (option obj_id)) :
  toy_slot v -> list_shape l -> list_shape (set_first v l).
Proof.
  intros Hv [-> | (e & -> & _)]; right; exists v; split; [reflexivity | exact Hv | reflexivity | exact Hv].
Qed.

Lemma moveWith_attach_all (v : option obj_id) (s : state) (p : obj_id) :
  moveWith (objs (attach_all v s) p) =
  match p with
  | VertRail | ArmJoint | Arm => set_first v (moveWith (objs s p))
  | ToyObj _ => moveWith (objs s p)
  end.
Proof. unfold attach_all. rewrite !objs_upd_obj. destruct p; reflexivity. Qed.

Lemma inv_attach_all (v : option obj_id) (s : state) :
  toy_slot v -> claw_inv s -> claw_inv (attach_all v s).
Proof.
  intros Hv ((Hvr & Hj & Ha & Hy) & Hel & Htg).
  split; [| split; [exact Hel | exact Htg]].
  unfold attach_shape. rewrite !moveWith_attach_all.
  split; [| split; [apply set_first_shape; assumption | split; [apply set_first_shape; assumption |]]].
  - destruct Hvr as (e & He & _). rewrite He. exists v. split; [reflexivity | exact Hv].
  - intro i. rewrite moveWith_attach_all. apply Hy.
Qed.

Lemma targetToy_attach_all (v : option obj_id) (s : state) : targetToy (attach_all v s) = targetToy s.
Proof. reflexivity. Qed.

Lemma inv_grabToy (s : state) : claw_inv s -> claw_inv (grabToy s).
Proof.
  intro Hs. unfold grabToy. destruct (targetToy s) as [t |] eqn:Et.
  - assert (Hv : toy_slot (Some t)).
    { destruct Hs as (_ & _ & Htg). destruct (Htg t Et) as [i ->]. right; exists i; reflexivity. }
    eapply keeps_inv; [keep_step; unfold setRotateAngle; apply keeps_upd |].
    + intro o. destruct (clawPos o) as [[cx cy] |]; reflexivity.
    + apply inv_attach_all; assumption.
  - eapply keeps_inv; [apply keeps_upd; intro; reflexivity | exact Hs].
Qed.

Lemma inv_dropToy (run : cb -> state -> state) (s : state) : claw_inv s -> claw_inv (dropToy run s).
Proof.
  intro Hs. unfold dropToy.
  eapply keeps_inv; [apply keeps_setTimeout |].
  assert (H1 : claw_inv (upd_obj Arm (fun o => set_classList (add_class "open"%string (classList o)) o) s))
    by (eapply keeps_inv; [apply keeps_upd; intro; reflexivity | exact Hs]).
  destruct (targetToy _) as [t |]; [| exact H1].
  apply inv_attach_all; [left; reflexivity |].
  apply inv_moveObject_; [intros c s' E; discriminate |].
  eapply keeps_inv; [apply keeps_upd; intro; reflexivity | exact H1].
Qed.

Lemma inv_set_targetToy_None (s : state) : claw_inv s -> claw_inv (set_targetToy None s).
Proof.
  intros (Hsh & Hel & _). split; [exact Hsh | split; [exact Hel | intros t E; discriminate]].
Qed.

Lemma inv_dropEnd (s : state) : claw_inv s -> claw_inv (dropEnd s).
Proof.
  intro Hs. unfold dropEnd.
  assert (H4 : claw_inv (activateHoriBtn (push_trace TurnComplete (set_turns true
             (remainingTurns (upd_obj Arm (fun o => set_classList
                (remove_class "open"%string (classList o)) o) s) - 1)
             (upd_obj Arm (fun o => set_classList (remove_class "open"%string (classList o)) o) s))))).
  { eapply keeps_inv; [| exact Hs].
    eapply keeps_trans; [apply keeps_activateHoriBtn |]. repeat keep_step. apply keeps_refl. }
  destruct (targetToy _) as [t |]; [| exact H4].
  apply inv_set_targetToy_None. eapply keeps_inv; [| exact H4]. repeat keep_step. apply keeps_refl.
Qed.

Lemma inv_getClosestToy (s : state) : claw_inv s -> claw_inv (getClosestToy s).
Proof.
  intro Hs. unfold getClosestToy.
  destruct (sort_by_index s _) as [| t r] eqn:E; [exact Hs |].
  assert (Ht : In t (toyEls s)).
  { assert (Hin : In t (sort_by_index s (filter (fun t => doOverlap (rect_of (objs s t)) (claw_rect s))
                                                  (toyEls s)))) by (rewrite E; left; reflexivity).
    apply sort_by_index_in, filter_overlap_in in Hin. apply Hin. }
  assert (H2 : claw_inv (upd_obj t (set_clawPos (Some (rx (claw_rect s), ry (claw_rect s))))
                 (upd_obj t (fun o => set_origin (OPoint (rx (claw_rect s) - x o)
                                                         (ry (claw_rect s) - y o)) o) s))).
  { eapply keeps_inv; [| exact Hs]. repeat keep_step. apply keeps_refl. }
  destruct H2 as (Hsh & Hel & _). split; [exact Hsh | split; [exact Hel |]].
  intros u Eu. injection Eu as <-. destruct Hs as (_ & Hel0 & _). apply Hel0, Ht.
Qed.

Lemma inv_cb_body (run : cb -> state -> state) (c : cb) (s : state) :
  (forall c' s', claw_inv s' -> claw_inv (run c' s')) -> claw_inv s -> claw_inv (cb_body run c s).
Proof.
  intros Hrun Hs. destruct c; simpl.
  - exact Hs.
  - eapply keeps_inv; [apply keeps_stopHori | exact Hs].
  - eapply keeps_inv; [apply keeps_resumeMove_ | exact Hs].
  - eapply keeps_inv; [| exact Hs].
    eapply keeps_trans; [apply keeps_activateHoriBtn |]. repeat keep_step. apply keeps_refl.
  - apply inv_moveObject_; [intros; apply Hrun; assumption |].
    eapply keeps_inv; [apply keeps_upd; intro; reflexivity | exact Hs].
  - eapply keeps_inv; [apply keeps_setTimeout | exact Hs].
  - eapply keeps_inv; [apply keeps_resumeMove_ |]. apply inv_grabToy.
    eapply keeps_inv; [apply keeps_upd; intro; reflexivity | exact Hs].
  - eapply keeps_inv; [apply keeps_resumeMove_ | exact Hs].
  - eapply keeps_inv; [apply keeps_resumeMove_ | exact Hs].
  - apply inv_dropToy, Hs.
  - apply inv_dropEnd, Hs.
  - eapply keeps_inv; [apply keeps_arrowCheck | exact Hs].
Qed.

Lemma inv_invoke (fuel : nat) (c : cb) (s : state) : claw_inv s -> claw_inv (invoke fuel c s).
Proof.
  revert c s; induction fuel as [| f IH]; intros c s Hs; simpl; [exact Hs |].
  apply inv_cb_body; [exact IH |]. eapply keeps_inv; [apply keeps_same_objs; reflexivity | exact Hs].
Qed.

Lemma inv_run_cb (c : cb) (s : state) : claw_inv s -> claw_inv (run_cb c s).
Proof. apply inv_invoke. Qed.

Lemma inv_tick (id : nat) (s : state) : claw_inv s -> claw_inv (tick id s).
Proof.
  intro Hs. unfold tick, tick_. destruct (find_timer id (timers s)) as [t |]; [| exact Hs].
  cbv zeta. destruct (should_move _ _).
  - eapply keeps_inv; [apply keeps_propagate |].
    eapply keeps_inv; [apply keeps_upd; intro; destruct (tkey t); reflexivity | exact Hs].
  - assert (H1 : claw_inv (clearObjInterval (town t) s))
      by (eapply keeps_inv; [apply keeps_clearObjInterval | exact Hs]).
    destruct (tnext t); [apply inv_run_cb |]; exact H1.
Qed.

Lemma inv_fire_timeout (id : nat) (s : state) : claw_inv s -> claw_inv (fire_timeout id s).
Proof.
  intro Hs. unfold fire_timeout. destruct (find _ _) as [[[? ?] c] |]; [| exact Hs].
  apply inv_run_cb. eapply keeps_inv; [apply keeps_same_objs; reflexivity | exact Hs].
Qed.

Lemma inv_add_toy (i : nat) (v : wobj) (s : state) :
  moveWith v = [] -> claw_inv s ->
  claw_inv (set_toyEls (toyEls s ++ [ToyObj i])
              (set_objs (fun p => if obj_id_eq_dec p (ToyObj i) then v else objs s p) s)).
Proof.
  intros Hvn ((Hv & Hj & Ha & Hy) & Hel & Htg).
  unfold claw_inv, attach_shape. cbn [objs toyEls targetToy set_toyEls set_objs].
  split; [| split].
  - destruct (obj_id_eq_dec VertRail (ToyObj i)); [discriminate |].
    destruct (obj_id_eq_dec ArmJoint (ToyObj i)); [discriminate |].
    destruct (obj_id_eq_dec Arm (ToyObj i)); [discriminate |].
    split; [exact Hv | split; [exact Hj | split; [exact Ha |]]].
    intro j. destruct (obj_id_eq_dec (ToyObj j) (ToyObj i)); [exact Hvn | apply Hy].
  - intros t Ht. apply in_app_or in Ht as [Ht | [<- | []]]; [apply Hel, Ht | exists i; reflexivity].
  - exact Htg.
Qed.

Lemma inv_createToy (jit : Z * Z) (i : nat) (s : state) : claw_inv s -> claw_inv (createToy jit i s).
Proof.
  intro Hs. unfold createToy.
  destruct (nth_error _ _) as [ty |]; [| exact Hs].
  destruct (lookup_toy _ _) as [sz |]; [| exact Hs].
  cbv zeta. apply inv_add_toy; [reflexivity | exact Hs].
Qed.

Lemma inv_step (i : input) (s : state) : claw_inv s -> claw_inv (step i s).
Proof.
  intro Hs. destruct i; simpl.
  - unfold onHoriBtnDown. apply inv_moveObject_; [intros; apply inv_run_cb; assumption |].
    eapply keeps_inv; [apply keeps_upd; intro; reflexivity | exact Hs].
  - unfold onHoriBtnUp. eapply keeps_inv; [| exact Hs].
    eapply keeps_trans; [apply keeps_stopHori | apply keeps_clearObjInterval].
  - unfold onVertBtnDown. destruct (locked (vertBtn s)); [exact Hs |].
    apply inv_moveObject_; [intros; discriminate | exact Hs].
  - unfold onVertBtnUp. eapply keeps_inv; [apply keeps_setTimeout |]. apply inv_getClosestToy.
    eapply keeps_inv; [| exact Hs]. keep_step. apply keeps_clearObjInterval.
  - apply inv_tick, Hs.
  - apply inv_fire_timeout, Hs.
  - destruct (obj_in _ _); [| exact Hs]. eapply keeps_inv; [apply keeps_collectToy | exact Hs].
  - eapply keeps_inv; [apply keeps_same_objs; reflexivity | exact Hs].
  - repeat apply inv_createToy. eapply keeps_inv; [apply keeps_set_catalog | exact Hs].
Qed.

Lemma inv_mount (mw mh mt mth mbh mbt : Z) (aj vr ar : Z * Z) :
  claw_inv (mount mw mh mt mth mbh mbt aj vr ar).
Proof.
  unfold mount, moveObject. apply inv_moveObject_; [intros; apply inv_run_cb; assumption |].
  split; [| split; [intros t [] | intros t E; discriminate]].
  split; [exists None; split; [reflexivity | left; reflexivity] |].
  split; [left; reflexivity | split; [left; reflexivity | intro i; reflexivity]].
Qed.

Lemma reachable_inv (s : state) : reachable s -> claw_inv s.
Proof. induction 1; [apply inv_mount | apply inv_step; assumption]. Qed.

(** ** Reachable sessions *)

Lemma reachable_drain (f : nat) (s : state) : reachable s -> reachable (drain_intervals f s).
Proof.
  revert s; induction f as [| f IH]; intros s H; simpl; [exact H |].
  destruct (timers s) as [| t r]; [exact H |].
  apply IH. change (tick (tid t) s) with (step (IntervalFires (tid t)) s). apply reach_step, H.
Qed.

Lemma reachable_run_inputs (l : list input) (s : state) : reachable s -> reachable (run_inputs l s).
Proof.
  unfold run_inputs. revert s; induction l as [| i l IH]; intros s H; simpl; [exact H |].
  apply IH, reach_step, H.
Qed.

Lemma reachable_play_turn (s : state) : reachable s -> reachable (play_turn s).
Proof.
  intro H. unfold play_turn.
  apply reachable_drain, reach_step, reachable_drain, reach_step, reachable_drain, reach_step.
  apply reach_step, reachable_drain, reachable_run_inputs, H.
Qed.

Lemma session_reachable :
  reachable Session.grabbed /\ reachable Session.turn_over /\ reachable Session.extra_turn.
Proof.
  assert (Hg : reachable Session.grabbed).
  { unfold Session.grabbed, Session.extended, Session.targeted, Session.joint_moving,
      Session.intro_done, Session.mounted.
    apply reach_step, reachable_drain, reach_step, reach_step, reachable_drain.
    apply reachable_run_inputs, reachable_drain, reach_mount. }
  assert (Ht : reachable Session.turn_over).
  { unfold Session.turn_over, Session.returned.
    apply reachable_drain, reach_step, reachable_drain, Hg. }
  split; [exact Hg | split; [exact Ht | apply reachable_play_turn, Ht]].
Qed.

(** ** The horizontal button *)

Lemma hori_press_idle (s : state) :
  interval (objs s VertRail) = None ->
  step HoriDown s =
  start_move VertRail
    (MoveOpts KX (Some (machineWidth (dm s) - w (objs s ArmJoint) - MACHINE_BUFFER_x))
       None (Some CbStopHori))
    (upd_obj Arm (fun o => set_classList (remove_class "missed"%string (classList o)) o) s).
Proof.
  intro H. simpl. unfold onHoriBtnDown, moveObject_. rewrite objs_upd_obj.
  destruct (obj_id_eq_dec VertRail Arm) as [E | _]; [discriminate |]. rewrite H. reflexivity.
Qed.

(** ** Clicking a toy *)

Lemma collectToy_facts (t : obj_id) (s : state) :
  collectedNumber (collectToy t s) = collectedNumber s + 1 /\
  trace (collectToy t s) = CollectRequest (toyType (objs s t)) :: trace s /\
  toyEls (collectToy t s) = toyEls s /\
  toyType (objs (collectToy t s) t) = toyType (objs s t) /\
  x (objs (collectToy t s) t) = machineWidth (dm s) / 2 - w (objs s t) / 2 /\
  y (objs (collectToy t s) t) = machineHeight (dm s) / 2 - h (objs s t) / 2.
Proof.
  unfold collectToy. cbn [setTimeout push_trace set_collected set_handles objs trace
                          collectedNumber toyEls dm].
  rewrite !objs_upd_obj. destruct (obj_id_eq_dec t t) as [_ | C]; [| congruence].
  repeat split.
Qed.

Lemma click_is_collect (i : nat) (s : state) :
  In (ToyObj i) (toyEls s) -> step (ClickToy i) s = collectToy (ToyObj i) s.
Proof.
  intro H. simpl. unfold obj_in.
  replace (existsb _ (toyEls s)) with true; [reflexivity |].
  symmetry. apply existsb_exists. exists (ToyObj i). split; [exact H |].
  destruct (obj_id_eq_dec (ToyObj i) (ToyObj i)); [reflexivity | congruence].
Qed.

Lemma run_inputs_cons (i : input) (l : list input) (s : state) :
  run_inputs (i :: l) s = run_inputs l (step i s).
Proof. reflexivity. Qed.

Lemma clicks_collect (i k : nat) (s : state) :
  In (ToyObj i) (toyEls s) ->
  collectedNumber (run_inputs (repeat (ClickToy i) k) s) = collectedNumber s + Z.of_nat k /\
  count_occ event_eq_dec (trace (run_inputs (repeat (ClickToy i) k) s))
    (CollectRequest (toyType (objs s (ToyObj i)))) =
  (count_occ event_eq_dec (trace s) (CollectRequest (toyType (objs s (ToyObj i)))) + k)%nat.
Proof.
  revert s. induction k as [| k IH]; intros s Hin.
  - simpl. split; lia.
  - cbn [repeat]. rewrite run_inputs_cons, (click_is_collect i s Hin).
    destruct (collectToy_facts (ToyObj i) s) as (Hc & Htr & Hel & Hty & _ & _).
    assert (Hin1 : In (ToyObj i) (toyEls (collectToy (ToyObj i) s))) by (rewrite Hel; exact Hin).
    destruct (IH _ Hin1) as [Hk Hn]. rewrite Hty in Hn. split.
    + rewrite Hk, Hc. lia.
    + rewrite Hn, Htr, (count_occ_cons_eq event_eq_dec _ eq_refl). lia.
Qed.

(** ** Attaching and detaching *)

Lemma keeps_moveObject_none (run : cb -> state -> state) (o : obj_id) (opts : move_opts) (s : state) :
  next opts = None -> keeps (moveObject_ run o opts s) s.
Proof.
  intro E. unfold moveObject_. destruct (interval (objs s o)).
  - rewrite E. apply keeps_clearObjInterval.
  - apply keeps_start_move.
Qed.

(** C1: the horizontal-press handler checks no turn count.  With
    [remainingTurns <= 0] and the rail idle, a press starts a movement
    interval on the rail toward the right edge, whose completion hands over
    to the vertical button; the state changes. *)
Theorem hori_press_starts_rail_without_turns (s : state)
    (Hturns : remainingTurns s <= 0) (Hidle : interval (objs s VertRail) = None) :
  interval (objs (step HoriDown s) VertRail) = Some (next_handle s) /\
  find_timer (next_handle s) (timers (step HoriDown s)) =
    Some (Timer (next_handle s) VertRail KX
            (machineWidth (dm s) - w (objs s ArmJoint) - MACHINE_BUFFER_x)
            (period_of None) (Some CbStopHori)) /\
  remainingTurns (step HoriDown s) = remainingTurns s /\
  step HoriDown s <> s.
Proof.
  rewrite (hori_press_idle s Hidle).
  split; [| split; [| split]].
  - rewrite objs_start_move, objs_upd_obj.
    destruct (obj_id_eq_dec VertRail VertRail) as [_ | C]; [reflexivity | congruence].
  - rewrite timers_start_move. apply find_timer_head. reflexivity.
  - reflexivity.
  - intro E. apply (f_equal next_handle) in E. simpl in E. lia.
Qed.

(** C2 (as the code has it): the click handler of a toy has no guard of
    its own.  Each click on a created toy relocates it to the display slot,
    adds 1 to [collectedNumber] and sends one collect request for its type,
    however often it was clicked before: [k] clicks add [k] and send [k]
    requests. *)
Theorem every_click_collects (i : nat) (k : nat) (s : state)
    (Hin : In (ToyObj i) (toyEls s)) :
  collectedNumber (step (ClickToy i) s) = collectedNumber s + 1 /\
  trace (step (ClickToy i) s) = CollectRequest (toyType (objs s (ToyObj i))) :: trace s /\
  x (objs (step (ClickToy i) s) (ToyObj i)) =
    machineWidth (dm s) / 2 - w (objs s (ToyObj i)) / 2 /\
  y (objs (step (ClickToy i) s) (ToyObj i)) =
    machineHeight (dm s) / 2 - h (objs s (ToyObj i)) / 2 /\
  collectedNumber (run_inputs (repeat (ClickToy i) k) s) = collectedNumber s + Z.of_nat k /\
  count_occ event_eq_dec (trace (run_inputs (repeat (ClickToy i) k) s))
    (CollectRequest (toyType (objs s (ToyObj i)))) =
  (count_occ event_eq_dec (trace s) (CollectRequest (toyType (objs s (ToyObj i)))) + k)%nat.
Proof.
  pose proof (clicks_collect i k s Hin) as Hk.
  rewrite (click_is_collect i s Hin).
  destruct (collectToy_facts (ToyObj i) s) as (Hc & Htr & _ & _ & Hx & Hy).
  split; [exact Hc | split; [exact Htr | split; [exact Hx | split; [exact Hy | exact Hk]]]].
Qed.

(** C4 (as the code has it): in every reachable state the rail's attached
    list is [[slot; armJoint]], so the rail carries the joint always and a
    toy besides while one is held; the joint's and the arm's lists have at
    most one slot; a toy's list is empty; a slot holds nothing or a toy.
    Grabbing writes the target into slot 0 of the three lists; dropping
    writes [null] into slot 0 of the three, leaving the joint in the
    rail's list. *)
Theorem attached_lists_shape (s : state) (Hr : reachable s) :
  attach_shape s /\
  (forall t, targetToy s = Some t ->
     moveWith (objs (grabToy s) VertRail) = [Some t; Some ArmJoint] /\
     moveWith (objs (grabToy s) ArmJoint) = [Some t] /\
     moveWith (objs (grabToy s) Arm) = [Some t]) /\
  (forall run, targetToy s <> None ->
     moveWith (objs (dropToy run s) VertRail) = [None; Some ArmJoint] /\
     moveWith (objs (dropToy run s) ArmJoint) = [None] /\
     moveWith (objs (dropToy run s) Arm) = [None]).
Proof.
  pose proof (reachable_inv s Hr) as Hinv.
  destruct Hinv as ((Hv & Hj & Ha & Hy) & Hel & Htg).
  assert (Hsh : attach_shape s) by (split; [exact Hv | split; [exact Hj | split; [exact Ha | exact Hy]]]).
  destruct Hv as (e & Hve & _).
  assert (Hset : forall v l, list_shape l -> set_first v l = [v])
    by (intros v l [-> | (e' & -> & _)]; reflexivity).
  split; [exact Hsh | split].
  - intros t Et. unfold grabToy. rewrite Et.
    assert (Hk : keeps (upd_obj t (fun o => set_classList (add_class "grabbed"%string (classList o)) o)
                          (setRotateAngle t (attach_all (Some t) s))) (attach_all (Some t) s)).
    { keep_step. unfold setRotateAngle. apply keeps_upd.
      intro o. destruct (clawPos o) as [[cx cy] |]; reflexivity. }
    destruct Hk as (Hm & _ & _). rewrite !Hm, !moveWith_attach_all, Hve, (Hset _ _ Hj), (Hset _ _ Ha).
    repeat split.
  - intros run Ht. unfold dropToy.
    destruct (targetToy s) as [t |] eqn:Et; [| congruence].
    cbn [targetToy upd_obj set_objs].
    rewrite Et.
    set (s2 := moveObject_ run t _ _).
    assert (Hk : keeps s2 s).
    { eapply keeps_trans; [apply keeps_moveObject_none; reflexivity |].
      repeat keep_step. apply keeps_refl. }
    destruct (keeps_setTimeout CbDropEnd 700 (attach_all None s2)) as (Hm0 & _ & _).
    destruct Hk as (Hm & _ & _).
    rewrite !Hm0, !moveWith_attach_all, !Hm, Hve, (Hset _ _ Hj), (Hset _ _ Ha).
    repeat split.
Qed.

Lemma hori_press_starts_rail_without_turns_witness :
  reachable Session.turn_over /\ remainingTurns Session.turn_over = 0 /\
  locked (horiBtn Session.turn_over) = true /\
  interval (objs Session.turn_over VertRail) = None /\
  interval (objs (step HoriDown Session.turn_over) VertRail) = Some (next_handle Session.turn_over) /\
  step HoriDown Session.turn_over <> Session.turn_over /\
  reachable Session.extra_turn /\ remainingTurns Session.extra_turn = -1.
Proof.
  destruct session_reachable as (_ & Ht & He).
  assert (H0 : remainingTurns Session.turn_over = 0) by (vm_compute; reflexivity).
  assert (Hi : interval (objs Session.turn_over VertRail) = None) by (vm_compute; reflexivity).
  destruct (hori_press_starts_rail_without_turns Session.turn_over ltac:(rewrite H0; lia) Hi)
    as (Hv & _ & _ & Hne).
  split; [exact Ht | split; [exact H0 | split; [vm_compute; reflexivity |]]].
  split; [exact Hi | split; [exact Hv | split; [exact Hne |]]].
  split; [exact He | vm_compute; reflexivity].
Defined.

(** Toy 0, dropped in the first turn and shown as collectable, clicked
    twice: two collections and two collect requests. *)
Lemma double_click_counterexample :
  reachable Session.turn_over /\
  In "selected"%string (classList (objs Session.turn_over (ToyObj 0))) /\
  collectedNumber Session.turn_over = 0 /\
  collectedNumber (run_inputs [ClickToy 0; ClickToy 0] Session.turn_over) = 2 /\
  count_occ event_eq_dec (trace (run_inputs [ClickToy 0; ClickToy 0] Session.turn_over))
    (CollectRequest "bear"%string) = 2%nat.
Proof.
  split; [apply session_reachable |].
  split; [vm_compute; right; right; right; right; left; reflexivity |].
  split; [vm_compute; reflexivity | split; vm_compute; reflexivity].
Qed.

Lemma every_click_collects_witness :
  In (ToyObj 0) (toyEls Session.turn_over) /\
  collectedNumber (run_inputs (repeat (ClickToy 0) 3) Session.turn_over) =
    collectedNumber Session.turn_over + 3.
Proof.
  assert (Hin : In (ToyObj 0) (toyEls Session.turn_over)) by (vm_compute; left; reflexivity).
  split; [exact Hin |].
  destruct (every_click_collects 0 3 Session.turn_over Hin) as (_ & _ & _ & _ & Hk & _).
  exact Hk.
Defined.

(** While the toy is held the rail carries two objects; after the drop the
    lists still have their slots, holding [null]. *)
Lemma rail_carries_two_counterexample :
  reachable Session.grabbed /\
  moveWith (objs Session.grabbed VertRail) = [Some (ToyObj 0); Some ArmJoint] /\
  moveWith (objs Session.turn_over VertRail) = [None; Some ArmJoint] /\
  moveWith (objs Session.turn_over ArmJoint) = [None] /\
  moveWith (objs Session.turn_over Arm) = [None].
Proof.
  split; [apply session_reachable |].
  split; [vm_compute; reflexivity | split; [vm_compute; reflexivity | split; vm_compute; reflexivity]].
Qed.

Lemma attached_lists_shape_witness :
  reachable Session.grabbed /\ attach_shape Session.grabbed /\
  moveWith (objs (dropToy run_cb Session.grabbed) VertRail) = [None; Some ArmJoint].
Proof.
  destruct session_reachable as (Hg & _ & _).
  destruct (attached_lists_shape Session.grabbed Hg) as (Hs & _ & Hd).
  split; [exact Hg | split; [exact Hs |]].
  apply (Hd run_cb). vm_compute. discriminate.
Defined.

(** ** Further properties of the code *)

Lemma tick_driving_move (run : cb -> state -> state) (id : nat) (o : obj_id) (k : move_key)
    (T : Z) (nx : option cb) (s : state) :
  driving id o k T nx s -> get_key k (objs s o) <> T ->
  driving id o k T nx (tick_ run id s) /\
  get_key k (objs (tick_ run id s) o) =
    get_key k (objs s o) + step_increment (get_key k (objs s o)) T /\
  trace (tick_ run id s) = trace s.
Proof.
  intros [[p Hf] [Hi Hn]] Hne.
  rewrite (tick_moving run id s _ Hf) by (simpl; exact Hne). simpl.
  set (inc := step_increment (get_key k (objs s o)) T).
  set (s1 := upd_obj o (set_key k (get_key k (objs s o) + inc)) s).
  set (l := moveWith (objs s o)).
  assert (Ho : frame_obj (objs (propagate k inc l s1) o) (objs s o)).
  { eapply frame_obj_trans; [apply propagate_frame |].
    unfold s1. rewrite objs_upd_obj. destruct (obj_id_eq_dec o o); [| congruence].
    apply frame_obj_set_key. }
  destruct Ho as (_ & _ & _ & _ & Hint & _ & Hmw & _).
  set (s' := propagate k inc l s1) in *.
  assert (Es : s' = set_objs (objs s') s) by (unfold s'; rewrite propagate_set_objs; reflexivity).
  split; [| split; [| rewrite Es; reflexivity]].
  - split; [exists p; rewrite Es; exact Hf |]. split; [rewrite Hint; exact Hi |].
    rewrite Hmw. exact Hn.
  - unfold s'. rewrite propagate_key, count_some_not_in by exact Hn.
    unfold s1. rewrite objs_upd_obj. destruct (obj_id_eq_dec o o); [| congruence].
    rewrite get_set_key. destruct k; simpl; lia.
Qed.

Lemma moving_ticks_bounds (cur T : Z) :
  10 * Z.of_nat (moving_ticks cur T) - 10 < Z.abs (cur - T) <= 10 * Z.of_nat (moving_ticks cur T).
Proof.
  unfold moving_ticks.
  pose proof (Z.div_mod (Z.abs (cur - T) + 9) 10 ltac:(lia)).
  pose proof (Z.mod_pos_bound (Z.abs (cur - T) + 9) 10 ltac:(lia)).
  pose proof (Z.abs_nonneg (cur - T)).
  assert (0 <= (Z.abs (cur - T) + 9) / 10) by (apply Z.div_pos; lia).
  rewrite Z2Nat.id by lia. lia.
Qed.

Lemma glide_succ (cur T : Z) (j : nat) :
  glide cur T j <> T ->
  glide cur T (S j) = glide cur T j + step_increment (glide cur T j) T.
Proof.
  unfold glide, step_increment, step_distance. rewrite Nat2Z.inj_succ. intro H.
  destruct (Z.leb_spec cur T);
  repeat match goal with
         | |- context [?a >? ?b] => destruct (Z.gtb_spec a b)
         | |- context [?a <? ?b] => destruct (Z.ltb_spec a b)
         end; lia.
Qed.

Lemma glide_reaches (cur T : Z) (j : nat) :
  glide cur T j = T <-> (moving_ticks cur T <= j)%nat.
Proof.
  pose proof (moving_ticks_bounds cur T) as Hb. unfold glide.
  destruct (Z.leb_spec cur T) as [Hc | Hc]; split; intro H; lia.
Qed.

(** X2: a [moveObject] interval driving [o] toward [T] moves it through [glide] for [moving_ticks] firings without touching the trace, lands exactly on [T], and the next firing clears the interval (the handle is gone, [o.interval] is null) and runs the [next] callback, if any. *)
Theorem move_lands_on_target (id : nat) (o : obj_id) (k : move_key) (T : Z) (nx : option cb)
    (s : state) (Hd : driving id o k T nx s) :
  let cur := get_key k (objs s o) in
  let n := moving_ticks cur T in
  (forall j, (j <= n)%nat ->
     get_key k (objs (Nat.iter j (tick id) s) o) = glide cur T j /\
     driving id o k T nx (Nat.iter j (tick id) s) /\
     trace (Nat.iter j (tick id) s) = trace s) /\
  get_key k (objs (Nat.iter n (tick id) s) o) = T /\
  tick id (Nat.iter n (tick id) s) =
    match nx with
    | Some c => run_cb c (clearObjInterval o (Nat.iter n (tick id) s))
    | None => clearObjInterval o (Nat.iter n (tick id) s)
    end /\
  find_timer id (timers (clearObjInterval o (Nat.iter n (tick id) s))) = None /\
  interval (objs (clearObjInterval o (Nat.iter n (tick id) s)) o) = None.
Proof.
  intros cur n.
  assert (Hall : forall j, (j <= n)%nat ->
     get_key k (objs (Nat.iter j (tick id) s) o) = glide cur T j /\
     driving id o k T nx (Nat.iter j (tick id) s) /\
     trace (Nat.iter j (tick id) s) = trace s).
  { induction j as [| j IH]; intro Hj.
    - split; [unfold glide; simpl; destruct (Z.leb_spec cur T); lia | split; [exact Hd | reflexivity]].
    - destruct (IH ltac:(lia)) as (Hv & Hdj & Htj).
      assert (Hne : get_key k (objs (Nat.iter j (tick id) s) o) <> T).
      { rewrite Hv. intro E. apply glide_reaches in E. unfold n in Hj. lia. }
      destruct (tick_driving_move run_cb id o k T nx _ Hdj Hne) as (Hd' & Hv' & Ht').
      rewrite Nat.iter_succ.
      split; [| split; [exact Hd' | rewrite <- Htj; exact Ht']].
      fold tick in Hv'. rewrite Hv', Hv. symmetry. apply glide_succ.
      rewrite <- Hv. exact Hne. }
  destruct (Hall n (le_n n)) as (Hv & Hdn & _).
  assert (HT : get_key k (objs (Nat.iter n (tick id) s) o) = T)
    by (rewrite Hv; apply glide_reaches; lia).
  destruct Hdn as ([p Hf] & Hi & _).
  destruct (clearObjInterval_some o _ id Hi) as (Ho & Ht & _ & _).
  split; [exact Hall | split; [exact HT | split; [| split]]].
  - exact (tick_completing run_cb id _ _ Hf HT).
  - rewrite Ht. apply find_timer_filter.
  - rewrite Ho, interval_cleared_self. reflexivity.
Qed.

Lemma move_lands_on_target_witness :
  driving 8 Arm KH 60 (Some CbArmRetracted) Session.grabbed /\
  get_key KH (objs (Nat.iter (moving_ticks (get_key KH (objs Session.grabbed Arm)) 60)
                      (tick 8) Session.grabbed) Arm) = 60.
Proof.
  assert (Hd : driving 8 Arm KH 60 (Some CbArmRetracted) Session.grabbed).
  { split; [exists 100; vm_compute; reflexivity |].
    split; [vm_compute; reflexivity | vm_compute; intros [H | []]; discriminate]. }
  split; [exact Hd |].
  destruct (move_lands_on_target 8 Arm KH 60 (Some CbArmRetracted) Session.grabbed Hd)
    as (_ & HT & _).
  exact HT.
Defined.

(** X3: [adjustAngle] is the mathematical remainder modulo 360: its result lies in [0, 360) and it does not change when a multiple of 360 is added to the angle. *)
Theorem adjustAngle_folds (a : Z) :
  adjustAngle a = a mod 360 /\ 0 <= adjustAngle a < 360 /\
  (forall k, adjustAngle (a + 360 * k) = adjustAngle a).
Proof.
  rewrite !adjustAngle_mod. split; [reflexivity | split; [apply Z.mod_pos_bound; lia |]].
  intro k. rewrite adjustAngle_mod, (Z.mul_comm 360 k), Z.mod_add by lia. reflexivity.
Qed.

Lemma spawn_fold (jit : list (Z * Z)) (l : list nat) (s : state) :
  toyEls (fold_left (fun s n => createToy (nth n jit (0, 0)) n s) l s) =
    toyEls s ++ map ToyObj
      (filter (fun n => match nth_error (sortedToys s) n with
                        | Some ty => match lookup_toy ty (toys s) with Some _ => true | None => false end
                        | None => false
                        end) l) /\
  toys (fold_left (fun s n => createToy (nth n jit (0, 0)) n s) l s) = toys s /\
  sortedToys (fold_left (fun s n => createToy (nth n jit (0, 0)) n s) l s) = sortedToys s.
Proof.
  revert s; induction l as [| n l IH]; intro s; simpl; [rewrite app_nil_r; repeat split |].
  destruct (IH (createToy (nth n jit (0, 0)) n s)) as (A & B & C).
  assert (Ht : toys (createToy (nth n jit (0, 0)) n s) = toys s /\
               sortedToys (createToy (nth n jit (0, 0)) n s) = sortedToys s).
  { unfold createToy. destruct (nth_error _ _); [destruct (lookup_toy _ _) |]; split; reflexivity. }
  destruct Ht as [Ht Hs]. rewrite Ht, Hs in A. rewrite B, C, Ht, Hs.
  split; [| split; reflexivity]. rewrite A.
  unfold createToy. destruct (nth_error (sortedToys s) n) as [ty |]; [| reflexivity].
  destruct (lookup_toy ty (toys s)); [| reflexivity].
  cbn [set_toyEls toyEls]. rewrite <- app_assoc. reflexivity.
Qed.

(** X4: after the toy catalog is fetched, the toy elements grow by one toy per spawn slot whose pick is in the catalog, in slot order; [g.toys] gains the catalog, [g.sortedToys] becomes the picks, and slot 8 never gets a toy. *)
Theorem toys_fetched_spawns (cat : list (string * toy_size)) (picks : list string)
    (jit : list (Z * Z)) (s : state) :
  toyEls (step (ToysFetched cat picks jit) s) =
    toyEls s ++ map ToyObj (spawned (rev cat ++ toys s) picks) /\
  toys (step (ToysFetched cat picks jit) s) = rev cat ++ toys s /\
  sortedToys (step (ToysFetched cat picks jit) s) = picks /\
  ~ In 8%nat (spawned (rev cat ++ toys s) picks).
Proof.
  cbn [step]. destruct (spawn_fold jit spawn_slots (set_catalog (rev cat ++ toys s) picks s))
    as (A & B & C).
  split; [exact A | split; [exact B | split; [exact C |]]].
  unfold spawned. rewrite filter_In. intros [H _]. simpl in H. intuition discriminate.
Qed.

Lemma gkeeps_refl (s : state) : gkeeps s s.
Proof. repeat split; auto. Qed.

Lemma gkeeps_trans (s1 s2 s3 : state) : gkeeps s1 s2 -> gkeeps s2 s3 -> gkeeps s1 s3.
Proof.
  intros (A1 & B1 & C1 & D1 & E1 & F1) (A2 & B2 & C2 & D2 & E2 & F2).
  split; [intro p; destruct (A1 p), (A2 p); split; congruence |].
  repeat split; try congruence. auto.
Qed.

Lemma gkeeps_inv (s1 s2 : state) : gkeeps s1 s2 -> game_inv s2 -> game_inv s1.
Proof.
  intros (A & B & C & D & E & F) (Ht & Hy & Hc). split; [auto | split].
  - intros t Hin. rewrite B in Hin. destruct (Hy t Hin) as (n & -> & Hs & Hi & Hl).
    exists n. destruct (A (ToyObj n)) as [Ai At].
    split; [reflexivity | split; [exact Hs | split; [congruence |]]]. rewrite At, C. exact Hl.
  - unfold collected_ok in *. congruence.
Qed.

Lemma gkeeps_upd (q : obj_id) (g : wobj -> wobj) (s : state) :
  (forall o, index (g o) = index o /\ toyType (g o) = toyType o) -> gkeeps (upd_obj q g s) s.
Proof.
  intro Hg. split; [| repeat split; auto].
  intro p. rewrite objs_upd_obj. destruct (obj_id_eq_dec p q); [apply Hg | split; reflexivity].
Qed.

Lemma gkeeps_same (s1 s2 : state) :
  objs s1 = objs s2 -> toyEls s1 = toyEls s2 -> toys s1 = toys s2 ->
  collectedNumber s1 = collectedNumber s2 -> trace s1 = trace s2 ->
  timers s1 = timers s2 -> intervals s1 = intervals s2 -> gkeeps s1 s2.
Proof.
  intros Eo Ee Et Ec Etr Eti Ei. split; [intro p; rewrite Eo; split; reflexivity |].
  split; [exact Ee | split; [exact Et | split; [exact Ec | split; [rewrite Etr; reflexivity |]]]].
  unfold tracked. rewrite Eti, Ei. auto.
Qed.

Lemma gkeeps_set_ui hb vb ar (s : state) : gkeeps (set_ui hb vb ar s) s.
Proof. apply gkeeps_same; reflexivity. Qed.
Lemma gkeeps_set_turns used rem (s : state) : gkeeps (set_turns used rem s) s.
Proof. apply gkeeps_same; reflexivity. Qed.
Lemma gkeeps_set_targetToy v (s : state) : gkeeps (set_targetToy v s) s.
Proof. apply gkeeps_same; reflexivity. Qed.
Lemma gkeeps_setTimeout (c : cb) (d : Z) (s : state) : gkeeps (setTimeout c d s) s.
Proof. apply gkeeps_same; reflexivity. Qed.
Lemma gkeeps_push_trace (e : event) (s : state) :
  is_request e = false -> gkeeps (push_trace e s) s.
Proof.
  intro He. split; [intro p; split; reflexivity |].
  repeat split; auto. unfold count_requests. simpl. rewrite He. reflexivity.
Qed.

Ltac gkeep_step :=
  eapply gkeeps_trans;
  [ first [ apply gkeeps_upd; intro; split; reflexivity | apply gkeeps_set_ui
          | apply gkeeps_set_turns | apply gkeeps_set_targetToy | apply gkeeps_setTimeout
          | apply gkeeps_push_trace; reflexivity ] |].

Lemma gkeeps_clearObjInterval (o : obj_id) (s : state) : gkeeps (clearObjInterval o s) s.
Proof.
  unfold clearObjInterval. destruct (interval (objs s o)) as [id |]; [| apply gkeeps_refl].
  gkeep_step. split; [intro p; split; reflexivity |]. repeat split; auto.
  intros Ht t Hin. simpl in Hin |- *. apply filter_In in Hin as [Hin Hne].
  apply filter_In. split; [apply Ht, Hin | exact Hne].
Qed.

Lemma gkeeps_start_move (o : obj_id) (opts : move_opts) (s : state) : gkeeps (start_move o opts s) s.
Proof.
  unfold start_move, intervals_add.
  split; [intro p; simpl; destruct (obj_id_eq_dec p o); split; reflexivity |].
  repeat split; auto.
  intros Ht t [<- | Hin]; simpl; [left; reflexivity | right; apply Ht, Hin].
Qed.

Lemma gkeeps_resumeMove_ (run : cb -> state -> state) (o : obj_id) (opts : move_opts) (s : state) :
  gkeeps (resumeMove_ run o opts s) s.
Proof.
  rewrite resumeMove_start. eapply gkeeps_trans; [apply gkeeps_start_move |].
  gkeep_step. apply gkeeps_refl.
Qed.

Lemma gkeeps_activateHoriBtn (s : state) : gkeeps (activateHoriBtn s) s.
Proof.
  unfold activateHoriBtn. destruct (remainingTurns s <=? 0); [apply gkeeps_refl |].
  repeat (eapply gkeeps_trans; [apply gkeeps_clearObjInterval |]). repeat gkeep_step.
  apply gkeeps_refl.
Qed.

Lemma gkeeps_stopHori (s : state) : gkeeps (stopHoriBtnAndActivateVertBtn s) s.
Proof. unfold stopHoriBtnAndActivateVertBtn. repeat gkeep_step. apply gkeeps_refl. Qed.

Lemma gkeeps_arrowCheck (s : state) : gkeeps (arrowCheck s) s.
Proof. unfold arrowCheck. destruct (existsb _ _); [apply gkeeps_refl | apply gkeeps_set_ui]. Qed.

Lemma gkeeps_attach_all (v : option obj_id) (s : state) : gkeeps (attach_all v s) s.
Proof. unfold attach_all. repeat gkeep_step. apply gkeeps_refl. Qed.

Lemma gkeeps_grabToy (s : state) : gkeeps (grabToy s) s.
Proof.
  unfold grabToy. destruct (targetToy s) as [t |]; [| gkeep_step; apply gkeeps_refl].
  gkeep_step. eapply gkeeps_trans; [unfold setRotateAngle; apply gkeeps_upd |].
  - intro o. destruct (clawPos o) as [[cx cy] |]; split; reflexivity.
  - apply gkeeps_attach_all.
Qed.

Lemma gkeeps_getClosestToy (s : state) : gkeeps (getClosestToy s) s.
Proof.
  unfold getClosestToy. destruct (sort_by_index s _) as [| t r]; [apply gkeeps_refl |].
  repeat gkeep_step. apply gkeeps_refl.
Qed.

Lemma gkeeps_propagate (k : move_key) (inc : Z) (l : list (option obj_id)) (s : state) :
  gkeeps (propagate k inc l s) s.
Proof.
  split.
  - intro p. destruct (propagate_frame k inc l s p) as (_ & _ & _ & _ & _ & _ & _ & Ht & Hi & _).
    split; assumption.
  - rewrite propagate_set_objs. repeat split; auto.
Qed.

Lemma gkeeps_moveObject_none (run : cb -> state -> state) (o : obj_id) (opts : move_opts) (s : state) :
  next opts = None -> gkeeps (moveObject_ run o opts s) s.
Proof.
  intro E. unfold moveObject_. destruct (interval (objs s o)).
  - rewrite E. apply gkeeps_clearObjInterval.
  - apply gkeeps_start_move.
Qed.

Lemma ginv_moveObject_ (run : cb -> state -> state) (o : obj_id) (opts : move_opts) (s : state) :
  (forall c s', next opts = Some c -> game_inv s' -> game_inv (run c s')) ->
  game_inv s -> game_inv (moveObject_ run o opts s).
Proof.
  intros Hrun Hs. unfold moveObject_. destruct (interval (objs s o)).
  - assert (H1 : game_inv (clearObjInterval o s))
      by (eapply gkeeps_inv; [apply gkeeps_clearObjInterval | exact Hs]).
    destruct (next opts) as [c |] eqn:E;
      [apply (Hrun c); [first [reflexivity | assumption] | exact H1] | exact H1].
  - eapply gkeeps_inv; [apply gkeeps_start_move | exact Hs].
Qed.

Lemma gkeeps_dropToy (run : cb -> state -> state) (s : state) : gkeeps (dropToy run s) s.
Proof.
  unfold dropToy. eapply gkeeps_trans; [apply gkeeps_setTimeout |].
  destruct (targetToy _) as [t |]; [| gkeep_step; apply gkeeps_refl].
  eapply gkeeps_trans; [apply gkeeps_attach_all |].
  eapply gkeeps_trans; [apply gkeeps_moveObject_none; reflexivity |].
  repeat gkeep_step. apply gkeeps_refl.
Qed.

Lemma gkeeps_dropEnd (s : state) : gkeeps (dropEnd s) s.
Proof.
  unfold dropEnd.
  destruct (targetToy _) as [t |].
  - repeat gkeep_step. eapply gkeeps_trans; [apply gkeeps_activateHoriBtn |].
    repeat gkeep_step. apply gkeeps_refl.
  - eapply gkeeps_trans; [apply gkeeps_activateHoriBtn |]. repeat gkeep_step. apply gkeeps_refl.
Qed.

Lemma ginv_cb_body (run : cb -> state -> state) (c : cb) (s : state) :
  (forall c' s', game_inv s' -> game_inv (run c' s')) -> game_inv s -> game_inv (cb_body run c s).
Proof.
  intros Hrun Hs. destruct c; simpl.
  - exact Hs.
  - eapply gkeeps_inv; [apply gkeeps_stopHori | exact Hs].
  - eapply gkeeps_inv; [apply gkeeps_resumeMove_ | exact Hs].
  - eapply gkeeps_inv; [| exact Hs].
    eapply gkeeps_trans; [apply gkeeps_activateHoriBtn |]. repeat gkeep_step. apply gkeeps_refl.
  - apply ginv_moveObject_; [intros; apply Hrun; assumption |].
    eapply gkeeps_inv; [gkeep_step; apply gkeeps_refl | exact Hs].
  - eapply gkeeps_inv; [apply gkeeps_setTimeout | exact Hs].
  - eapply gkeeps_inv; [| exact Hs].
    eapply gkeeps_trans; [apply gkeeps_resumeMove_ |].
    eapply gkeeps_trans; [apply gkeeps_grabToy |]. gkeep_step. apply gkeeps_refl.
  - eapply gkeeps_inv; [apply gkeeps_resumeMove_ | exact Hs].
  - eapply gkeeps_inv; [apply gkeeps_resumeMove_ | exact Hs].
  - eapply gkeeps_inv; [apply gkeeps_dropToy | exact Hs].
  - eapply gkeeps_inv; [apply gkeeps_dropEnd | exact Hs].
  - eapply gkeeps_inv; [apply gkeeps_arrowCheck | exact Hs].
Qed.

Lemma ginv_invoke (fuel : nat) (c : cb) (s : state) : game_inv s -> game_inv (invoke fuel c s).
Proof.
  revert c s; induction fuel as [| f IH]; intros c s Hs; simpl; [exact Hs |].
  apply ginv_cb_body; [exact IH |]. eapply gkeeps_inv; [apply gkeeps_push_trace; reflexivity | exact Hs].
Qed.

Lemma ginv_run_cb (c : cb) (s : state) : game_inv s -> game_inv (run_cb c s).
Proof. apply ginv_invoke. Qed.

Lemma ginv_tick (id : nat) (s : state) : game_inv s -> game_inv (tick id s).
Proof.
  intro Hs. unfold tick, tick_. destruct (find_timer id (timers s)) as [t |]; [| exact Hs].
  cbv zeta. destruct (should_move _ _).
  - eapply gkeeps_inv; [apply gkeeps_propagate |].
    eapply gkeeps_inv; [apply gkeeps_upd; intro; destruct (tkey t); split; reflexivity | exact Hs].
  - assert (H1 : game_inv (clearObjInterval (town t) s))
      by (eapply gkeeps_inv; [apply gkeeps_clearObjInterval | exact Hs]).
    destruct (tnext t); [apply ginv_run_cb |]; exact H1.
Qed.

Lemma ginv_fire_timeout (id : nat) (s : state) : game_inv s -> game_inv (fire_timeout id s).
Proof.
  intro Hs. unfold fire_timeout. destruct (find _ _) as [[[? ?] c] |]; [| exact Hs].
  apply ginv_run_cb. eapply gkeeps_inv; [apply gkeeps_same; reflexivity | exact Hs].
Qed.

Lemma ginv_collectToy (t : obj_id) (s : state) : game_inv s -> game_inv (collectToy t s).
Proof.
  intros (Ht & Hy & Hc). unfold collectToy.
  eapply gkeeps_inv; [apply gkeeps_setTimeout |].
  split; [| split].
  - intros u Hu. apply Ht, Hu.
  - intros u Hu. destruct (Hy u Hu) as (n & -> & Hs & Hi & Hl).
    exists n. cbn [push_trace set_collected objs toyEls toys] in *.
    rewrite objs_upd_obj. destruct (obj_id_eq_dec (ToyObj n) t); auto.
  - unfold collected_ok, count_requests in *. cbn [push_trace set_collected objs trace collectedNumber].
    simpl. rewrite Hc. lia.
Qed.

Lemma lookup_toy_app (ty : string) (l1 l2 : list (string * toy_size)) :
  lookup_toy ty l2 <> None -> lookup_toy ty (l1 ++ l2) <> None.
Proof.
  induction l1 as [| [n sz] l1 IH]; simpl; [auto |].
  intro H. destruct (String.eqb n ty); [discriminate | auto].
Qed.

Lemma ginv_set_catalog (cat : list (string * toy_size)) (picks : list string) (s : state) :
  game_inv s -> game_inv (set_catalog (rev cat ++ toys s) picks s).
Proof.
  intros (Ht & Hy & Hc). split; [exact Ht | split; [| exact Hc]].
  intros u Hu. destruct (Hy u Hu) as (n & -> & Hs & Hi & Hl).
  exists n. repeat split; auto. apply lookup_toy_app, Hl.
Qed.

Lemma ginv_createToy (jit : Z * Z) (i : nat) (s : state) :
  In i spawn_slots -> game_inv s -> game_inv (createToy jit i s).
Proof.
  intros Hi (Ht & Hy & Hc). unfold createToy.
  destruct (nth_error _ _) as [ty |]; [| split; auto].
  destruct (lookup_toy ty (toys s)) as [sz |] eqn:El; [| split; auto].
  split; [exact Ht | split; [| exact Hc]].
  intros u Hu. cbn [set_toyEls set_objs toyEls objs toys] in *.
  apply in_app_or in Hu as [Hu | [<- | []]].
  - destruct (Hy u Hu) as (n & -> & Hs & Hn & Hl). exists n.
    destruct (obj_id_eq_dec (ToyObj n) (ToyObj i)) as [E | _]; [| auto].
    injection E as ->. simpl. rewrite El. repeat split; auto. discriminate.
  - exists i. destruct (obj_id_eq_dec (ToyObj i) (ToyObj i)) as [_ | C]; [| congruence].
    simpl. rewrite El. repeat split; auto. discriminate.
Qed.

Lemma ginv_spawn (jit : list (Z * Z)) (l : list nat) (s : state) :
  incl l spawn_slots -> game_inv s ->
  game_inv (fold_left (fun s n => createToy (nth n jit (0, 0)) n s) l s).
Proof.
  revert s; induction l as [| n l IH]; intros s Hl Hs; simpl; [exact Hs |].
  apply IH; [intros m Hm; apply Hl; right; exact Hm |].
  apply ginv_createToy; [apply Hl; left; reflexivity | exact Hs].
Qed.

Lemma ginv_step (i : input) (s : state) : game_inv s -> game_inv (step i s).
Proof.
  intro Hs. destruct i; cbn [step].
  - unfold onHoriBtnDown. apply ginv_moveObject_; [intros; apply ginv_run_cb; assumption |].
    eapply gkeeps_inv; [gkeep_step; apply gkeeps_refl | exact Hs].
  - unfold onHoriBtnUp. eapply gkeeps_inv; [| exact Hs].
    eapply gkeeps_trans; [apply gkeeps_stopHori | apply gkeeps_clearObjInterval].
  - unfold onVertBtnDown. destruct (locked (vertBtn s)); [exact Hs |].
    apply ginv_moveObject_; [intros; discriminate | exact Hs].
  - unfold onVertBtnUp. eapply gkeeps_inv; [| exact Hs].
    eapply gkeeps_trans; [apply gkeeps_setTimeout |].
    eapply gkeeps_trans; [apply gkeeps_getClosestToy |].
    gkeep_step. apply gkeeps_clearObjInterval.
  - apply ginv_tick, Hs.
  - apply ginv_fire_timeout, Hs.
  - destruct (obj_in _ _); [apply ginv_collectToy, Hs | exact Hs].
  - eapply gkeeps_inv; [apply gkeeps_set_turns | exact Hs].
  - apply ginv_spawn; [intros m Hm; exact Hm |]. apply ginv_set_catalog, Hs.
Qed.

Lemma ginv_mount (mw mh mt mth mbh mbt : Z) (aj vr ar : Z * Z) :
  game_inv (mount mw mh mt mth mbh mbt aj vr ar).
Proof.
  unfold mount, moveObject. apply ginv_moveObject_; [intros; apply ginv_run_cb; assumption |].
  split; [intros t [] | split; [intros t [] | reflexivity]].
Qed.

Lemma reachable_ginv (s : state) : reachable s -> game_inv s.
Proof. induction 1; [apply ginv_mount | apply ginv_step; assumption]. Qed.

Lemma clearIntervals_all (l : list nat) (s : state) :
  (forall t, In t (timers s) -> In (tid t) l) ->
  timers (fold_left (fun s id => clearInterval id s) l s) = [] /\
  timeouts (fold_left (fun s id => clearInterval id s) l s) = timeouts s.
Proof.
  revert s; induction l as [| id l IH]; intros s H; simpl.
  - split; [| reflexivity]. destruct s as [? ? ? ? ? ? ? ? ? ? timers0 ? ? ? ? ? ?]; simpl in *. destruct timers0 as [| t r]; [reflexivity |].
    destruct (H t); left; reflexivity.
  - destruct (IH (clearInterval id s)) as [H1 H2].
    + intros t Ht. simpl in Ht. apply filter_In in Ht as [Ht Hne].
      destruct (H t Ht) as [E | Hl]; [| exact Hl].
      rewrite E, Nat.eqb_refl in Hne. discriminate.
    + split; [exact H1 | rewrite H2; reflexivity].
Qed.

(** X5: in every reachable state the unmount cleanup clears every live interval (timeouts are left pending), after which no interval firing changes the state. *)
Theorem unmount_clears_every_interval (s : state) (Hr : reachable s) :
  timers (unmount s) = [] /\ timeouts (unmount s) = timeouts s /\
  (forall id, tick id (unmount s) = unmount s).
Proof.
  destruct (reachable_ginv s Hr) as (Ht & _ & _).
  destruct (clearIntervals_all (intervals s) s Ht) as [H1 H2].
  split; [exact H1 | split; [exact H2 |]].
  intro id. apply tick_cleared. unfold unmount. rewrite H1. reflexivity.
Qed.

(** X6: in every reachable state every toy element is a toy of a grid cell [n < 12] other than 8, carries [n] as its index, and has a type that [g.toys] knows. *)
Theorem toy_elements_well_formed (s : state) (Hr : reachable s) :
  forall t, In t (toyEls s) ->
    exists n, t = ToyObj n /\ n <> 8%nat /\ (n < 12)%nat /\ index (objs s t) = Z.of_nat n /\
              exists sz, lookup_toy (toyType (objs s t)) (toys s) = Some sz.
Proof.
  intros t Ht. destruct (reachable_ginv s Hr) as (_ & Hy & _).
  destruct (Hy t Ht) as (n & -> & Hs & Hi & Hl).
  exists n. split; [reflexivity |].
  split; [| split; [| split; [exact Hi |]]].
  - intro E. subst n. simpl in Hs. intuition discriminate.
  - simpl in Hs. intuition lia.
  - destruct (lookup_toy _ _) as [sz |]; [exists sz; reflexivity | congruence].
Qed.

(** X7: in every reachable state [g.collectedNumber] equals the number of collect requests sent. *)
Theorem collected_counts_requests (s : state) (Hr : reachable s) :
  collectedNumber s = Z.of_nat (count_requests (trace s)).
Proof. apply (reachable_ginv s Hr). Qed.







(** What [clearObjInterval] leaves alone. *)
Lemma clearObjInterval_frame (o : obj_id) (s : state) :
  remainingTurns (clearObjInterval o s) = remainingTurns s /\
  trace (clearObjInterval o s) = trace s /\
  targetToy (clearObjInterval o s) = targetToy s /\
  arrowActive (clearObjInterval o s) = arrowActive s /\
  turnUsed (clearObjInterval o s) = turnUsed s /\
  horiBtn (clearObjInterval o s) = horiBtn s /\
  (forall p, classList (objs (clearObjInterval o s) p) = classList (objs s p)) /\
  interval (objs (clearObjInterval o s) o) = None /\
  (forall p, p <> o -> interval (objs (clearObjInterval o s) p) = interval (objs s p)).
Proof.
  unfold clearObjInterval. destruct (interval (objs s o)) eqn:E.
  - cbn [upd_obj set_objs intervals_delete clearInterval set_handles remainingTurns trace
         targetToy arrowActive turnUsed horiBtn objs].
    repeat split.
    + intro p. destruct (obj_id_eq_dec p o); reflexivity.
    + destruct (obj_id_eq_dec o o) as [_ | C]; [reflexivity | congruence].
    + intros p Hp. destruct (obj_id_eq_dec p o); [congruence | reflexivity].
  - repeat split; auto.
Qed.

Lemma activateHoriBtn_facts (s : state) :
  remainingTurns (activateHoriBtn s) = remainingTurns s /\
  trace (activateHoriBtn s) = trace s /\
  targetToy (activateHoriBtn s) = targetToy s /\
  arrowActive (activateHoriBtn s) = arrowActive s /\
  (forall p, classList (objs (activateHoriBtn s) p) = classList (objs s p)) /\
  (remainingTurns s <= 0 -> turnUsed (activateHoriBtn s) = turnUsed s /\
                            horiBtn (activateHoriBtn s) = horiBtn s) /\
  (0 < remainingTurns s ->
     turnUsed (activateHoriBtn s) = false /\ horiBtn (activateHoriBtn s) = Button true false /\
     interval (objs (activateHoriBtn s) VertRail) = None /\
     interval (objs (activateHoriBtn s) ArmJoint) = None /\
     interval (objs (activateHoriBtn s) Arm) = None).
Proof.
  unfold activateHoriBtn. destruct (Z.leb_spec (remainingTurns s) 0) as [Hle | Hgt].
  - do 4 (split; [reflexivity |]). split; [intro; reflexivity |].
    split; [intro; split; reflexivity | intro; lia].
  - set (s2 := set_ui (activateBtn (horiBtn (set_turns false (remainingTurns s) s)))
                 (vertBtn (set_turns false (remainingTurns s) s))
                 (arrowActive (set_turns false (remainingTurns s) s))
                 (set_turns false (remainingTurns s) s)).
    destruct (clearObjInterval_frame VertRail s2) as (A1 & B1 & C1 & D1 & E1 & F1 & G1 & H1 & I1).
    destruct (clearObjInterval_frame ArmJoint (clearObjInterval VertRail s2))
      as (A2 & B2 & C2 & D2 & E2 & F2 & G2 & H2 & I2).
    destruct (clearObjInterval_frame Arm (clearObjInterval ArmJoint (clearObjInterval VertRail s2)))
      as (A3 & B3 & C3 & D3 & E3 & F3 & G3 & H3 & I3).
    split; [rewrite A3, A2, A1; reflexivity |].
    split; [rewrite B3, B2, B1; reflexivity |].
    split; [rewrite C3, C2, C1; reflexivity |].
    split; [rewrite D3, D2, D1; reflexivity |].
    split; [intro p; rewrite G3, G2, G1; reflexivity |].
    split; [intro; lia |].
    intros _. split; [rewrite E3, E2, E1; reflexivity |].
    split; [rewrite F3, F2, F1; reflexivity |].
    split; [rewrite I3, I2, H1 by discriminate; reflexivity |].
    split; [rewrite I3, H2 by discriminate; reflexivity | exact H3].
Qed.

(** X9: the end of a drop decrements the remaining turns, reports the completed turn and drops the target; with turns left it re-enables the horizontal button with all three moving parts idle, with none left it marks the turn used, and a target toy stays selected with the arrow shown. *)
Theorem turn_end_accounting (s : state) :
  remainingTurns (dropEnd s) = remainingTurns s - 1 /\
  trace (dropEnd s) = TurnComplete :: trace s /\
  targetToy (dropEnd s) = None /\
  (remainingTurns s - 1 <= 0 ->
     turnUsed (dropEnd s) = true /\ horiBtn (dropEnd s) = horiBtn s) /\
  (0 < remainingTurns s - 1 ->
     turnUsed (dropEnd s) = false /\ horiBtn (dropEnd s) = Button true false /\
     interval (objs (dropEnd s) VertRail) = None /\
     interval (objs (dropEnd s) ArmJoint) = None /\
     interval (objs (dropEnd s) Arm) = None) /\
  (forall t, targetToy s = Some t ->
     In "selected"%string (classList (objs (dropEnd s) t)) /\ arrowActive (dropEnd s) = true).
Proof.
  unfold dropEnd.
  set (s1 := upd_obj Arm (fun o => set_classList (remove_class "open"%string (classList o)) o) s).
  set (s3 := push_trace TurnComplete (set_turns true (remainingTurns s1 - 1) s1)).
  assert (R3 : remainingTurns s3 = remainingTurns s - 1) by reflexivity.
  assert (T3 : trace s3 = TurnComplete :: trace s) by reflexivity.
  assert (G3 : targetToy s3 = targetToy s) by reflexivity.
  assert (U3 : turnUsed s3 = true) by reflexivity.
  assert (B3 : horiBtn s3 = horiBtn s) by reflexivity.
  destruct (activateHoriBtn_facts s3) as (A & B & C & D & E & F & G).
  rewrite R3 in A, F, G. rewrite T3 in B. rewrite G3 in C.
  destruct (targetToy s) as [t |] eqn:Et.
  - rewrite C. cbn [upd_obj set_objs set_targetToy set_ui remainingTurns trace targetToy turnUsed horiBtn
                    arrowActive objs].
    split; [exact A | split; [exact B | split; [reflexivity |]]].
    split; [intro Hle; destruct (F Hle) as [F1 F2]; rewrite F1, F2; split; assumption |].
    split.
    + intro Hgt. destruct (G Hgt) as (G1 & G2 & G4 & G5 & G6).
      rewrite ?objs_upd_obj.
      destruct (obj_id_eq_dec VertRail t), (obj_id_eq_dec ArmJoint t), (obj_id_eq_dec Arm t);
        repeat split; assumption.
    + intros u Eu. injection Eu as <-. rewrite ?objs_upd_obj.
      destruct (obj_id_eq_dec t t) as [_ | Cn]; [| congruence].
      split; [| reflexivity]. cbn [set_classList classList]. unfold add_class.
      destruct (existsb _ _) eqn:Ex.
      * apply existsb_exists in Ex as (c & Hc & Eq). apply String.eqb_eq in Eq. subst c. exact Hc.
      * apply in_or_app. right. left. reflexivity.
  - rewrite C.
    split; [exact A | split; [exact B | split; [exact C |]]].
    split; [intro Hle; destruct (F Hle) as [F1 F2]; rewrite F1, F2; split; assumption |].
    split; [exact G | intros u Eu; discriminate].
Qed.

Lemma unmount_clears_every_interval_witness :
  reachable Session.grabbed /\ timers Session.grabbed <> [] /\
  timers (unmount Session.grabbed) = [].
Proof.
  destruct session_reachable as (Hg & _ & _).
  split; [exact Hg | split; [vm_compute; discriminate |]].
  exact (proj1 (unmount_clears_every_interval Session.grabbed Hg)).
Defined.

Lemma toy_elements_well_formed_witness :
  reachable Session.turn_over /\ toyEls Session.turn_over <> [] /\
  forall t, In t (toyEls Session.turn_over) ->
    exists n, t = ToyObj n /\ n <> 8%nat /\ (n < 12)%nat.
Proof.
  destruct session_reachable as (_ & Ht & _).
  split; [exact Ht | split; [vm_compute; discriminate |]].
  intros t Hin.
  destruct (toy_elements_well_formed Session.turn_over Ht t Hin) as (n & E & H8 & H12 & _).
  exists n. split; [exact E | split; assumption].
Defined.

Lemma collected_counts_requests_witness :
  reachable Session.turn_over /\
  collectedNumber Session.turn_over = Z.of_nat (count_requests (trace Session.turn_over)).
Proof.
  destruct session_reachable as (_ & Ht & _).
  split; [exact Ht | exact (collected_counts_requests Session.turn_over Ht)].
Defined.

